(** * WoofMoo: the archive directory of [src/index.mjs]

    A shallow embedding of the directory engine of the WFMU voice action:
    title normalisation, the two listing parsers, ingestion, the refresh
    merge and the exact/approximate lookup done by the [playArchive]
    handler.

    Modelling conventions.
    - A JavaScript string is a [string]: a sequence of code units below 256.
    - [null]/[undefined] is [None]; a truthy string is a non-empty one.
    - A JavaScript number (distances, timestamps in milliseconds) is a [Z].
    - A plain object used as a table is the list of its own entries in the
      order [Object.keys] reports them; properties inherited from
      [Object.prototype], and the special key [__proto__], are not part of
      the model.
    - A rejected promise (a failed [axios.get]) is [None] in the result of
      the function that awaited it.
    - The clock ([Date.now()]) and the network are inputs: every function
      that reads them takes the reading, or the answers, as arguments.

    The second copy of the program in the repository differs from
    [src/index.mjs] in its comments and in one place of [applyShow]: it
    reads the clock after the playlist request instead of before.  The
    embedding takes the reading as an argument and covers both. *)

From Stdlib Require Import String Ascii List ZArith NArith Lia Bool Arith.
Import ListNotations.

Local Open Scope string_scope.
Local Open Scope Z_scope.

(* ================================================================= *)
(** ** Strings *)

Module JsString.

Definition code (c : ascii) : N := N_of_ascii c.

(** WhiteSpace and LineTerminator code units below 256: TAB, LF, VT, FF,
    CR, SPACE and NBSP.  This is what [trim] strips and what [\s]
    matches. *)
Definition is_white_space (c : ascii) : bool :=
  let n := code c in
  (((9 <=? n) && (n <=? 13)) || (n =? 32) || (n =? 160))%N.

(** LineTerminator code units: LF and CR.  The regexp [.] matches every
    code unit but these. *)
Definition is_line_terminator (c : ascii) : bool :=
  let n := code c in ((n =? 10) || (n =? 13))%N.

(** Lower-case mapping of one code unit: A-Z, and the Latin-1 capitals
    U+00C0..U+00DE except the multiplication sign U+00D7. *)
Definition lower_char (c : ascii) : ascii :=
  let n := code c in
  if (((65 <=? n) && (n <=? 90))
      || ((192 <=? n) && (n <=? 222) && negb (n =? 215)))%N
  then ascii_of_N (n + 32) else c.

(** [String.prototype.toLowerCase]. *)
Fixpoint toLowerCase (s : string) : string :=
  match s with
  | EmptyString => EmptyString
  | String c s' => String (lower_char c) (toLowerCase s')
  end.

(** [s.replace(/c/g, empty)]: every occurrence of the character [c] is
    deleted. *)
Fixpoint remove_all (c : ascii) (s : string) : string :=
  match s with
  | EmptyString => EmptyString
  | String d s' =>
      if Ascii.eqb c d then remove_all c s' else String d (remove_all c s')
  end.

Fixpoint trimStart (s : string) : string :=
  match s with
  | EmptyString => EmptyString
  | String c s' => if is_white_space c then trimStart s' else s
  end.

Fixpoint trimEnd (s : string) : string :=
  match s with
  | EmptyString => EmptyString
  | String c s' =>
      match trimEnd s' with
      | EmptyString => if is_white_space c then EmptyString
                       else String c EmptyString
      | r => String c r
      end
  end.

(** [String.prototype.trim]. *)
Definition trim (s : string) : string := trimEnd (trimStart s).

(** Truthiness of a value that is [null] or a string. *)
Definition truthy (v : option string) : bool :=
  match v with
  | Some (String _ _) => true
  | _ => false
  end.

(** The first [n] code units of [s]. *)
Fixpoint take (n : nat) (s : string) : string :=
  match n, s with
  | S n', String c s' => String c (take n' s')
  | _, _ => EmptyString
  end.

(** [strip_prefix p s] is the rest of [s] after its prefix [p]. *)
Fixpoint strip_prefix (p s : string) : option string :=
  match p with
  | EmptyString => Some s
  | String c p' =>
      match s with
      | String d s' => if Ascii.eqb c d then strip_prefix p' s' else None
      | EmptyString => None
      end
  end.

(** The string made of [n] copies of [c]. *)
Fixpoint replicate (n : nat) (c : ascii) : string :=
  match n with
  | O => EmptyString
  | S n' => String c (replicate n' c)
  end.

(** Membership of a code unit in a string. *)
Fixpoint occurs (c : ascii) (s : string) : Prop :=
  match s with
  | EmptyString => False
  | String d s' => d = c \/ occurs c s'
  end.

End JsString.

(* ================================================================= *)
(** ** Regular expressions

    The fragment of ECMAScript regular expressions the program uses:
    literal text, one character of a class, greedy [+] and [*] over a
    class, capturing groups and concatenation.  Matching is the
    backtracking search of the language definition: a greedy quantifier
    first takes as many characters as it can and gives them back one at a
    time until the rest of the pattern matches. *)

Module Regex.
Import JsString.

Inductive charset : Type :=
| CDot                              (* .  *)
| CSpace                            (* \s *)
| CChar (c : ascii)                 (* a literal character *)
| CUnion (a b : charset).           (* [ab] *)

Fixpoint mem (cs : charset) (c : ascii) : bool :=
  match cs with
  | CDot => negb (is_line_terminator c)
  | CSpace => is_white_space c
  | CChar d => Ascii.eqb d c
  | CUnion a b => mem a c || mem b c
  end.

Inductive regex : Type :=
| RStr (lit : string)               (* literal text *)
| ROne (cs : charset)               (* one character of a class *)
| RPlus (cs : charset)              (* cs+ , greedy *)
| RStar (cs : charset)              (* cs* , greedy *)
| RGroup (i : nat) (r : regex)      (* the i-th capturing group *)
| RSeq (r1 r2 : regex).             (* r1 r2 *)

(** Captures recorded so far, most recent first. *)
Definition captures := list (nat * string).

(** The continuation of a match: the rest of the pattern, run on the
    rest of the input. *)
Definition cont := string -> captures -> option captures.

(** The text between the input [s] and its suffix [s']. *)
Definition consumed (s s' : string) : string :=
  take (String.length s - String.length s') s.

(** Greedy repetition of a class: take the next character and try the
    longer match first; on failure continue from here. *)
Fixpoint star (cs : charset) (s : string) (caps : captures) (k : cont)
  : option captures :=
  match s with
  | String c s' =>
      if mem cs c then
        match star cs s' caps k with
        | Some res => Some res
        | None => k s caps
        end
      else k s caps
  | EmptyString => k s caps
  end.

Fixpoint rmatch (r : regex) (s : string) (caps : captures) (k : cont)
  : option captures :=
  match r with
  | RStr lit =>
      match strip_prefix lit s with
      | Some s' => k s' caps
      | None => None
      end
  | ROne cs =>
      match s with
      | String c s' => if mem cs c then k s' caps else None
      | EmptyString => None
      end
  | RPlus cs =>
      match s with
      | String c s' => if mem cs c then star cs s' caps k else None
      | EmptyString => None
      end
  | RStar cs => star cs s caps k
  | RGroup i r' =>
      rmatch r' s caps (fun s' caps' => k s' ((i, consumed s s') :: caps'))
  | RSeq r1 r2 =>
      rmatch r1 s caps (fun s' caps' => rmatch r2 s' caps' k)
  end.

Fixpoint all_in (cs : charset) (p : string) : bool :=
  match p with
  | EmptyString => true
  | String c p' => mem cs c && all_in cs p'
  end.

(** What a successful run of a pattern looks like, whatever the order in
    which the matcher tries the alternatives: [run r s caps s' caps']
    when [r] can take a prefix of [s] and leave [s'], turning the
    captures [caps] into [caps']. *)
Inductive run : regex -> string -> captures -> string -> captures -> Prop :=
| run_str : forall lit s caps,
    run (RStr lit) (lit ++ s) caps s caps
| run_one : forall cs c s caps,
    mem cs c = true -> run (ROne cs) (String c s) caps s caps
| run_plus : forall cs c p s caps,
    mem cs c = true -> all_in cs p = true ->
    run (RPlus cs) (String c (p ++ s)) caps s caps
| run_star : forall cs p s caps,
    all_in cs p = true -> run (RStar cs) (p ++ s) caps s caps
| run_group : forall i r s caps s' caps',
    run r s caps s' caps' ->
    run (RGroup i r) s caps s' ((i, consumed s s') :: caps')
| run_seq : forall r1 r2 s caps s1 caps1 s2 caps2,
    run r1 s caps s1 caps1 -> run r2 s1 caps1 s2 caps2 ->
    run (RSeq r1 r2) s caps s2 caps2.

(** The match attempted at the start of [s]; group 0 is the whole
    match. *)
Definition match_here (r : regex) (s : string) : option captures :=
  rmatch (RGroup 0 r) s [] (fun _ caps => Some caps).

(** The leftmost match: every start position in turn, from the left. *)
Fixpoint search (r : regex) (s : string) : option captures :=
  match match_here r s with
  | Some caps => Some caps
  | None =>
      match s with
      | String _ s' => search r s'
      | EmptyString => None
      end
  end.

Fixpoint assoc (i : nat) (caps : captures) : option string :=
  match caps with
  | [] => None
  | (j, v) :: caps' => if Nat.eqb i j then Some v else assoc i caps'
  end.

Definition group (caps : captures) (i : nat) : string :=
  match assoc i caps with
  | Some v => v
  | None => EmptyString
  end.

(** The number of capturing groups of a pattern. *)
Fixpoint ngroups (r : regex) : nat :=
  match r with
  | RGroup i r' => Nat.max i (ngroups r')
  | RSeq r1 r2 => Nat.max (ngroups r1) (ngroups r2)
  | _ => O
  end.

(** The indices of the groups of a pattern. *)
Fixpoint group_indices (r : regex) : list nat :=
  match r with
  | RGroup i r' => i :: group_indices r'
  | RSeq r1 r2 => (group_indices r1 ++ group_indices r2)%list
  | _ => []
  end.

(** [s.match(r)] for a pattern without the [g] flag: [null], or the
    array of the whole match followed by the text of each group.  The
    patterns of this fragment have neither alternatives nor optional
    parts, so every group takes part in a match and no element of the
    array is [undefined] (lemma [groups_take_part]). *)
Definition js_match (s : string) (r : regex) : option (list string) :=
  match search r s with
  | Some caps => Some (map (group caps) (seq 0 (S (ngroups r))))
  | None => None
  end.

End Regex.

(* ================================================================= *)
(** ** Edit distance

    [js-levenshtein] is a third-party package: it returns the Levenshtein
    distance of two strings, compared code unit by code unit.  It is given
    here by the defining recurrence of that distance. *)

Fixpoint levenshtein (a b : string) : Z :=
  match a with
  | EmptyString => Z.of_nat (String.length b)
  | String x a' =>
      (fix against (b : string) : Z :=
         match b with
         | EmptyString => Z.of_nat (String.length a)
         | String y b' =>
             Z.min (Z.min (levenshtein a' b + 1) (against b' + 1))
                   (levenshtein a' b' + (if Ascii.eqb x y then 0 else 1))
         end) b
  end.

(* ================================================================= *)
(** ** Objects used as tables

    The own enumerable string-keyed properties of a plain object, in the
    order of [Object.keys]: array-index keys first in ascending numeric
    order, then the other keys in the order they were created. *)

Module JsObject.
Import JsString.

Section Table.
Context {V : Type}.

Definition obj := list (string * V).

(** [o[k]]. *)
Fixpoint get (k : string) (o : obj) : option V :=
  match o with
  | [] => None
  | (k', v) :: o' => if String.eqb k k' then Some v else get k o'
  end.

(** [Object.keys(o)]. *)
Definition keys (o : obj) : list string := map fst o.

Definition digit (c : ascii) : option N :=
  let n := code c in
  if ((48 <=? n) && (n <=? 57))%N then Some (n - 48)%N else None.

Fixpoint digits_value (s : string) (acc : N) : option N :=
  match s with
  | EmptyString => Some acc
  | String c s' =>
      match digit c with
      | Some d => digits_value s' (10 * acc + d)%N
      | None => None
      end
  end.

(** A key is an array index when it is the canonical decimal numeral
    of an integer from 0 to 2^32 - 2. *)
Definition array_index (k : string) : option N :=
  match k with
  | EmptyString => None
  | String c rest =>
      if ((code c =? 48)%N && negb (String.eqb rest EmptyString)) then None
      else match digits_value k 0 with
           | Some n => if (n <=? 4294967294)%N then Some n else None
           | None => None
           end
  end.

Fixpoint replace (k : string) (v : V) (o : obj) : obj :=
  match o with
  | [] => []
  | (k', v') :: o' =>
      if String.eqb k k' then (k', v) :: o' else (k', v') :: replace k v o'
  end.

Fixpoint insert_index (n : N) (k : string) (v : V) (o : obj) : obj :=
  match o with
  | [] => [(k, v)]
  | (k', v') :: o' =>
      match array_index k' with
      | Some n' =>
          if (n' <? n)%N then (k', v') :: insert_index n k v o'
          else (k, v) :: o
      | None => (k, v) :: o
      end
  end.

(** [o[k] = v]: an existing property keeps its place; a new one is
    created in enumeration order. *)
Definition set (k : string) (v : V) (o : obj) : obj :=
  match get k o with
  | Some _ => replace k v o
  | None =>
      match array_index k with
      | Some n => insert_index n k v o
      | None => (o ++ [(k, v)])%list
      end
  end.

(** [Object.assign(target, source)]: every own key of [source], in
    order, is read from [source] and written to [target]. *)
Definition write_from (source : obj) (acc : obj) (k : string) : obj :=
  match get k source with
  | Some v => set k v acc
  | None => acc
  end.

Definition assign (target source : obj) : obj :=
  fold_left (write_from source) (keys source) target.

(** The key a property access uses for the value of a variable that is
    [null] or a string: [o[null]] reads the property named "null". *)
Definition property_key (k : option string) : string :=
  match k with
  | Some s => s
  | None => "null"
  end.

End Table.

Arguments obj V : clear implicits.

End JsObject.

(* ================================================================= *)
(** ** The program *)

Module WoofMoo.
Import JsString Regex JsObject.

Definition wfmu : string := "WFMU".
Definition wfmuLivestreamUrl : string := "http://stream0.wfmu.org/freeform-128k".
Definition wfmuBaseUrl : string := "http://wfmu.org".

(** Don't play any archive that's more than 30 days old. *)
Definition archiveAgeLimitMilliseconds : Z := 30 * 24 * 60 * 60 * 1000.

Record archive : Type := mkArchive {
  titleAnnounce : string;
  description : string;
  date : option string;
  mp3Link : string;
  dateFound : option Z
}.

(** Definition of the livestream "show". *)
Definition liveStreamShow : archive :=
  {| titleAnnounce := wfmu;
     description := wfmu;
     date := None;
     mp3Link := wfmuLivestreamUrl;
     dateFound := None |}.

Definition shows := obj archive.

(** Default list of shows: the livestream is listed as "play" and as
    "wfmu". *)
Definition defaultShows : shows :=
  [("play", liveStreamShow); ("wfmu", liveStreamShow)].

(* --------------------------------------------------------------- *)
(** *** getBestMatchArchive *)

(** [archive.dateFound && now - archive.dateFound >
    archiveAgeLimitMilliseconds]: a missing timestamp, like the number
    0, is falsy. *)
Definition expired (now : Z) (a : archive) : bool :=
  match dateFound a with
  | Some found =>
      negb (found =? 0) && (archiveAgeLimitMilliseconds <? now - found)
  | None => false
  end.

(** The state of the scan: [best] and [bestDistance]. *)
Definition scan_state : Type := option string * Z.

(** The body of the [forEach] callback for one key. *)
Definition consider (archives : shows) (now : Z) (title : string)
           (st : scan_state) (key : string) : scan_state :=
  let archive := get key archives in
  let distance := levenshtein title key in
  if distance <? snd st then
    match archive with
    | Some a => if expired now a then st else (Some key, distance)
    | None => st            (* not reached: [key] is a key of [archives] *)
    end
  else st.

Definition scan (archives : shows) (now : Z) (title : string) : scan_state :=
  fold_left (consider archives now title) (keys archives) (None, 10000).

(** The function returns [archives[best]]; when no key was selected
    [best] is still [null]. *)
Definition getBestMatchArchive (archives : shows) (now : Z) (title : string)
  : option archive :=
  get (property_key (fst (scan archives now title))) archives.

(** A record that takes part in the search: stored under [key] and not
    expired. *)
Definition candidate (archives : shows) (now : Z) (key : string) : Prop :=
  exists a, get key archives = Some a /\ expired now a = false.

(** What the scan knows after the keys [seen]. *)
Definition scanned (archives : shows) (now : Z) (title : string)
           (seen : list string) (st : scan_state) : Prop :=
  snd st <= 10000
  /\ match fst st with
     | Some best => In best seen /\ candidate archives now best
                    /\ levenshtein title best = snd st /\ snd st < 10000
     | None => snd st = 10000
     end
  /\ forall key, In key seen -> candidate archives now key ->
                 snd st <= levenshtein title key.

(** The archive the [playArchive] handler answers with
    ([matchedArchive]); [None] when it sets no prompt. *)
Definition playArchive (archives : shows) (now : Z) (archiveName : string)
  : option archive :=
  let requestedArchiveName := toLowerCase archiveName in
  match get requestedArchiveName archives with
  | Some matchedArchive => Some matchedArchive
  | None => getBestMatchArchive archives now requestedArchiveName
  end.

(* --------------------------------------------------------------- *)
(** *** getTitleSynonyms *)

(** [/(.+)'s show/] *)
Definition sShowRegExp : regex :=
  RSeq (RGroup 1 (RPlus CDot)) (RStr "'s show").

(** [/the (.+) radio programme/] *)
Definition theRadioProgrammeRegExp : regex :=
  RSeq (RStr "the ") (RSeq (RGroup 1 (RPlus CDot)) (RStr " radio programme")).

(** The double-quote character. *)
Definition dquote : ascii := Eval cbv in ascii_of_nat 34.

(** The title as it is used for a key: lower case, without double
    quotes, colons and exclamation marks. *)
Definition normalise (title : string) : string :=
  remove_all "!" (remove_all ":" (remove_all dquote (toLowerCase title))).

(** [if (m && m.length > 1) synonyms.push(m[1])] *)
Definition pushed (m : option (list string)) : list string :=
  match m with
  | Some (_ :: g1 :: _) => [g1]
  | _ => []
  end.

Definition getTitleSynonyms (title : string) : list string :=
  let title := normalise title in
  ([title]
     ++ pushed (js_match title sShowRegExp)
     ++ pushed (js_match title theRadioProgrammeRegExp))%list.

(* --------------------------------------------------------------- *)
(** *** The listing parsers *)

(** [/WFMU MP3 Archive: (.+) from (.+)/] *)
Definition regExp1 : regex :=
  RSeq (RStr "WFMU MP3 Archive: ")
       (RSeq (RGroup 1 (RPlus CDot))
             (RSeq (RStr " from ") (RGroup 2 (RPlus CDot)))).

(** [/(.+) with (.+)/] *)
Definition regExp2 : regex :=
  RSeq (RGroup 1 (RPlus CDot)) (RSeq (RStr " with ") (RGroup 2 (RPlus CDot))).

(** [/(.+):[.|\s]*/] *)
Definition dateRegExp : regex :=
  RSeq (RGroup 1 (RPlus CDot))
       (RSeq (RStr ":")
             (RStar (CUnion (CChar ".") (CUnion (CChar "|") CSpace)))).

(** One turn of the [for (;;)] loop: the new title when [regExp2]
    matches, [None] at the [break]. *)
Definition withoutHost (showTitle : string) : option string :=
  match js_match showTitle regExp2 with
  | Some (_ :: g1 :: _ :: _) => Some g1
  | _ => None
  end.

(** The loop, run for at most [fuel] turns. *)
Fixpoint withoutHosts_loop (fuel : nat) (showTitle : string) : string :=
  match fuel with
  | O => showTitle
  | S fuel' =>
      match withoutHost showTitle with
      | Some showTitle' => withoutHosts_loop fuel' showTitle'
      | None => showTitle
      end
  end.

Definition withoutHosts (showTitle : string) : string :=
  withoutHosts_loop (String.length showTitle) showTitle.

(** The loop as the program runs it: any number of turns up to the
    [break]. *)
Inductive loop_runs : string -> string -> Prop :=
| loop_break : forall t, withoutHost t = None -> loop_runs t t
| loop_again : forall t t' r,
    withoutHost t = Some t' -> loop_runs t' r -> loop_runs t r.

(** What the queries on one [item] of the feed return: the text of each
    [guid] child and of each [title] child. *)
Record xmlItem : Type := mkXmlItem {
  guidTexts : list string;
  titleTexts : list string
}.

(** What the queries on one [.program] element of the page return: the
    [href] attribute of each [a.archive-link], the text of each
    [span.archive-link] and of each [a.show-title-link]. *)
Record htmlItem : Type := mkHtmlItem {
  archiveLinkHrefs : list (option string);
  archiveLinkSpans : list string;
  showTitleLinks : list string
}.

(** The local variables of an iteratee when it calls [applyShow]. *)
Record triple : Type := mkTriple {
  showTitle : option string;
  showDate : option string;
  m3uLink : option string
}.

Definition xmlTitleDate (text : string) : option string * option string :=
  match js_match text regExp1 with
  | Some (_ :: g1 :: g2 :: _) => (Some (withoutHosts g1), Some g2)
  | _ => (Some text, None)
  end.

Definition xmlTriple (item : xmlItem) : triple :=
  let link := match guidTexts item with
              | g :: _ => Some g
              | [] => None
              end in
  let '(title, date) := match titleTexts item with
                        | t :: _ => xmlTitleDate t
                        | [] => (None, None)
                        end in
  {| showTitle := title; showDate := date; m3uLink := link |}.

(** The date of an entry of the page: the pattern's array always has
    two elements, so [dateMatches[1]] is the group. *)
Definition htmlDate (spanText : string) : option string :=
  let dateText := trim spanText in
  match js_match dateText dateRegExp with
  | Some (_ :: g1 :: _) => Some (toLowerCase (trim g1))
  | _ => None
  end.

(** A template literal prints a missing attribute as "undefined". *)
Definition template_text (v : option string) : string :=
  match v with
  | Some s => s
  | None => "undefined"
  end.

Definition htmlTriple (item : htmlItem) : triple :=
  {| showTitle := match showTitleLinks item with
                  | t :: _ => Some t
                  | [] => None
                  end;
     showDate := match archiveLinkSpans item with
                 | d :: _ => htmlDate d
                 | [] => None
                 end;
     m3uLink := match archiveLinkHrefs item with
                | h :: _ => Some (wfmuBaseUrl ++ template_text h)
                | [] => None
                end |}.

(** The playlist [applyShow] requests for a triple: its link, when
    link, title and date are all truthy. *)
Definition request (t : triple) : option string :=
  if truthy (m3uLink t) && truthy (showTitle t) && truthy (showDate t)
  then m3uLink t else None.

(** The keys under which [applyShow] stores the record of a triple. *)
Definition keysOf (t : triple) : list string :=
  match showTitle t with
  | Some title => getTitleSynonyms title
  | None => []
  end.

(** [Object.assign({}, archives, latestArchives)], the new value of
    [archives] in [refreshFunction]. *)
Definition merged (archives latestArchives : shows) : shows :=
  assign (assign [] archives) latestArchives.

(* --------------------------------------------------------------- *)
(** *** Ingestion *)

Section Ingestion.

(** [axios.get(url)]: the body of the response, or [None] when the
    request fails and the promise is rejected. *)
Variable fetch : string -> option string.

Definition applyShow (now : Z) (t : triple) (acc : shows) : option shows :=
  if truthy (m3uLink t) && truthy (showTitle t) && truthy (showDate t) then
    match m3uLink t, showTitle t, showDate t with
    | Some link, Some title, Some date =>
        match fetch link with
        | Some data =>
            let titleSynonyms := getTitleSynonyms title in
            let a := {| titleAnnounce := title;
                        description := "WFMU archive";
                        date := Some date;
                        mp3Link := trim data;
                        dateFound := Some now |} in
            Some (fold_left (fun acc key => set key a acc) titleSynonyms acc)
        | None => None
        end
    | _, _, _ => Some acc        (* not reached: the three are truthy *)
    end
  else Some acc.

(** [async.each(items, iteratee)] with a shared accumulator.  Every
    iteratee is started at once and writes when its request
    completes, so [items] lists them in the order of completion, each
    with the clock reading its iteratee took.  The promise of
    [async.each] is rejected as soon as one iteratee is. *)
Fixpoint each {A : Type} (iteratee : Z -> A -> shows -> option shows)
         (items : list (Z * A)) (acc : shows) : option shows :=
  match items with
  | [] => Some acc
  | (now, item) :: rest =>
      match iteratee now item acc with
      | Some acc' => each iteratee rest acc'
      | None => None
      end
  end.

(** [feed] is what [fetchHtml(archiveFeedUrl)] gives: the [item]
    elements, or [None] when the request fails. *)
Definition refreshArchiveListFromXml (feed : option (list (Z * xmlItem)))
  : option shows :=
  match feed with
  | Some items =>
      each (fun now item => applyShow now (xmlTriple item)) items
           (assign [] defaultShows)
  | None => None
  end.

Definition refreshArchiveListFromHtml (page : option (list (Z * htmlItem)))
  : option shows :=
  match page with
  | Some items =>
      each (fun now item => applyShow now (htmlTriple item)) items
           (assign [] defaultShows)
  | None => None
  end.

(** [archives = merged archives latestArchives]; the assignment is not
    reached when the refresh is rejected. *)
Definition refreshFunction (archives : shows)
           (feed : option (list (Z * xmlItem))) : option shows :=
  match refreshArchiveListFromXml feed with
  | Some latestArchives => Some (merged archives latestArchives)
  | None => None
  end.

End Ingestion.

(** The values the variable [archives] takes once the module has
    started: the page is read once, then the feed is merged in at
    start-up and at every tick of the timer. *)
Inductive live : shows -> Prop :=
| live_page : forall fetch page a,
    refreshArchiveListFromHtml fetch page = Some a -> live a
| live_feed : forall fetch feed a a',
    live a -> refreshFunction fetch a feed = Some a' -> live a'.

End WoofMoo.

(* ================================================================= *)
(** ** Concrete listings, tables and queries *)

Module Scenario.
Import JsString Regex JsObject WoofMoo.

Definition days (n : Z) : Z := n * (24 * 60 * 60 * 1000).

(** A clock reading: 13 September 2020. *)
Definition t0 : Z := 1600000000000.

(** A server that answers every playlist request, with a trailing line
    break as playlist files have. *)
Definition serveAll (url : string) : option string :=
  Some ("http://mp3.example/show.mp3" ++ String (ascii_of_nat 10) "").

(** A server on which one playlist is missing. *)
Definition serveAllButOne (url : string) : option string :=
  if String.eqb url "http://wfmu.org/gone.m3u" then None else serveAll url.

(** An [item] of the feed. *)
Definition feedItem (link title : string) : xmlItem :=
  {| guidTexts := [link];
     titleTexts := ["WFMU MP3 Archive: " ++ title ++ " from Monday 1/1"] |}.

(** A [.program] element of the page. *)
Definition pageEntry (title : string) : htmlItem :=
  {| archiveLinkHrefs := [Some "/listen.m3u"];
     archiveLinkSpans := ["Monday 1/1: "];
     showTitleLinks := [title] |}.

(** The record [applyShow] builds at [t0] for an entry of the page. *)
Definition scraped (title : string) : archive :=
  {| titleAnnounce := title;
     description := "WFMU archive";
     date := Some "monday 1/1";
     mp3Link := "http://mp3.example/show.mp3";
     dateFound := Some t0 |}.

(** The page lists one show, "Wake!". *)
Definition wakeTable : shows :=
  [("play", liveStreamShow); ("wfmu", liveStreamShow);
   ("wake", scraped "Wake!")].

(** The page lists one show, "Null". *)
Definition nullTable : shows :=
  [("play", liveStreamShow); ("wfmu", liveStreamShow);
   ("null", scraped "Null")].

(** The page lists one show, "WFMU". *)
Definition stationTable : shows :=
  [("play", liveStreamShow); ("wfmu", scraped "WFMU")].


(** A query of 10004 letters. *)
Definition longQuery : string := replicate (Z.to_nat 10004) "a".

(** A feed of two items; the playlist of the second is missing. *)
Definition twoItems : list (Z * xmlItem) :=
  [(t0, feedItem "http://wfmu.org/here.m3u" "Wake");
   (t0, feedItem "http://wfmu.org/gone.m3u" "Seven Second Delay")].

(** The date of an entry as the specification words it: the trimmed text
    up to its first colon. *)
Fixpoint beforeFirstColon (s : string) : string :=
  match s with
  | EmptyString => EmptyString
  | String c s' =>
      if Ascii.eqb c ":" then EmptyString else String c (beforeFirstColon s')
  end.

End Scenario.

(* ================================================================= *)
(** ** The answer of the [playArchive] handler *)

Module Prompt.
Import JsString JsObject WoofMoo.






End Prompt.

(* ================================================================= *)
(** ** Invariants *)

Module Invariant.
Import JsString JsObject WoofMoo.

(** The key the scan holds was met before every other candidate it has
    seen at the same distance. *)
Definition earliest (archives : shows) (now : Z) (title : string)
           (seen : list string) (st : scan_state) : Prop :=
  match fst st with
  | Some best =>
      exists before after,
        seen = (before ++ best :: after)%list
        /\ forall key, In key before -> candidate archives now key ->
                       snd st < levenshtein title key
  | None => True
  end.

(** A record as [applyShow] builds it. *)
Definition scraped_shape (a : archive) : Prop :=
  titleAnnounce a <> ""
  /\ description a = "WFMU archive"
  /\ (exists d, date a = Some d /\ d <> "")
  /\ (exists found, dateFound a = Some found).

(** A key as [getTitleSynonyms] makes it. *)
Definition normal_key (key : string) : Prop :=
  toLowerCase key = key
  /\ ~ occurs dquote key /\ ~ occurs ":"%char key /\ ~ occurs "!"%char key.

End Invariant.

(* ================================================================= *)
(** * Properties *)

Import JsString Regex JsObject WoofMoo Scenario.

(* ----------------------------------------------------------------- *)
(** ** The embedding on small inputs *)

Example synonyms_of_a_possessive :
  getTitleSynonyms "Clay Pigeon's Show" = ["clay pigeon's show"; "clay pigeon"].
Proof. reflexivity. Qed.

Example synonyms_of_a_programme :
  getTitleSynonyms "The Glen Jones Radio Programme"
  = ["the glen jones radio programme"; "glen jones"].
Proof. reflexivity. Qed.

Example greedy_group_takes_the_last_from :
  js_match "WFMU MP3 Archive: A Letter from Home from Monday 1/1" regExp1
  = Some ["WFMU MP3 Archive: A Letter from Home from Monday 1/1";
          "A Letter from Home"; "Monday 1/1"].
Proof. reflexivity. Qed.

Example two_hosts_are_stripped :
  withoutHosts "Wake with Clay Pigeon with Guests" = "Wake".
Proof. reflexivity. Qed.

Example distance_of_kitten_and_sitting : levenshtein "kitten" "sitting" = 3.
Proof. reflexivity. Qed.

Example keys_are_enumerated_indices_first :
  keys (set "7" 4%nat (set "b" 3%nat (set "12" 2%nat (set "a" 1%nat []))))
  = ["7"; "12"; "a"; "b"].
Proof. reflexivity. Qed.

Example nearest_key_wins :
  playArchive wakeTable (t0 + days 1) "woke" = Some (scraped "Wake!").
Proof. reflexivity. Qed.

Example expired_key_is_passed_over :
  playArchive wakeTable (t0 + days 31) "woke" = Some liveStreamShow.
Proof. reflexivity. Qed.

Example page_with_one_show :
  refreshArchiveListFromHtml serveAll (Some [(t0, pageEntry "Wake!")])
  = Some wakeTable.
Proof. reflexivity. Qed.

(* ----------------------------------------------------------------- *)
(** ** Strings *)

Lemma length_app (a b : string) :
  String.length (a ++ b) = (String.length a + String.length b)%nat.
Proof. induction a as [|c a IH]; simpl; [reflexivity | now rewrite IH]. Qed.

Lemma app_assoc_string (a b c : string) : (a ++ b) ++ c = a ++ (b ++ c).
Proof. induction a as [|x a IH]; simpl; [reflexivity | now rewrite IH]. Qed.

Lemma take_app (a b : string) : take (String.length a) (a ++ b) = a.
Proof. induction a as [|c a IH]; simpl; [now destruct b | now rewrite IH]. Qed.

Lemma occurs_app (c : ascii) (a b : string) :
  occurs c (a ++ b) <-> occurs c a \/ occurs c b.
Proof. induction a as [|x a IH]; simpl; tauto. Qed.

Lemma length_replicate (n : nat) (c : ascii) : String.length (replicate n c) = n.
Proof. induction n as [|n IH]; simpl; [reflexivity | now rewrite IH]. Qed.

Lemma strip_prefix_app (p s s' : string) :
  strip_prefix p s = Some s' -> s = p ++ s'.
Proof.
  revert s; induction p as [|c p IH]; intros s H; simpl in *.
  - now inversion H.
  - destruct s as [|d s]; [discriminate|].
    destruct (Ascii.eqb c d) eqn:E; [|discriminate].
    apply Ascii.eqb_eq in E; subst d. now rewrite (IH s H).
Qed.

Lemma strip_prefix_here (p s : string) : strip_prefix p (p ++ s) = Some s.
Proof.
  induction p as [|c p IH]; simpl; [reflexivity|].
  now rewrite Ascii.eqb_refl.
Qed.

Lemma lower_char_idem (c : ascii) : lower_char (lower_char c) = lower_char c.
Proof. destruct c as [[] [] [] [] [] [] [] []]; vm_compute; reflexivity. Qed.

Lemma toLowerCase_idem (s : string) : toLowerCase (toLowerCase s) = toLowerCase s.
Proof.
  induction s as [|c s IH]; simpl; [reflexivity|].
  now rewrite lower_char_idem, IH.
Qed.

Lemma occurs_toLowerCase (c : ascii) (s : string) :
  occurs c (toLowerCase s) -> lower_char c = c.
Proof.
  induction s as [|d s IH]; simpl; [tauto|].
  intros [<- | H]; [apply lower_char_idem | auto].
Qed.

Lemma occurs_remove_all (c d : ascii) (s : string) :
  occurs c (remove_all d s) <-> occurs c s /\ c <> d.
Proof.
  induction s as [|x s IH]; simpl; [tauto|].
  destruct (Ascii.eqb d x) eqn:E.
  - apply Ascii.eqb_eq in E; subst x. rewrite IH.
    split; [tauto|]. intros [[->|H] N]; [congruence | tauto].
  - apply Ascii.eqb_neq in E. simpl. rewrite IH.
    split; [intros [->|[H N]]; split; auto; congruence | tauto].
Qed.

(** A string all of whose characters are fixed by [lower_char] is fixed by
    [toLowerCase]. *)
Lemma toLowerCase_fixed (s : string) :
  (forall c, occurs c s -> lower_char c = c) -> toLowerCase s = s.
Proof.
  induction s as [|d s IH]; simpl; intros H; [reflexivity|].
  rewrite (H d), IH; auto.
Qed.

(* ----------------------------------------------------------------- *)
(** ** The matcher *)

(** Every answer of the matcher comes from a run of the pattern followed
    by the continuation. *)
Lemma star_run cs s caps k res :
  star cs s caps k = Some res ->
  exists p s', s = p ++ s' /\ all_in cs p = true /\ k s' caps = Some res.
Proof.
  revert res; induction s as [|c s IH]; simpl; intros res H.
  - exists EmptyString, EmptyString. auto.
  - destruct (mem cs c) eqn:M.
    + destruct (star cs s caps k) as [r|] eqn:E.
      * inversion H; subst r.
        destruct (IH _ eq_refl) as (p & s' & -> & A & K).
        exists (String c p), s'. simpl. rewrite M, A. auto.
      * exists EmptyString, (String c s). auto.
    + exists EmptyString, (String c s). auto.
Qed.

Lemma rmatch_run r : forall s caps k res,
  rmatch r s caps k = Some res ->
  exists s' caps', run r s caps s' caps' /\ k s' caps' = Some res.
Proof.
  induction r as [lit|cs|cs|cs|i r IH|r1 IH1 r2 IH2]; simpl; intros s caps k res H.
  - destruct (strip_prefix lit s) as [s'|] eqn:E; [|discriminate].
    apply strip_prefix_app in E; subst s.
    exists s', caps. split; [constructor | assumption].
  - destruct s as [|c s]; [discriminate|].
    destruct (mem cs c) eqn:M; [|discriminate].
    exists s, caps. split; [now constructor | assumption].
  - destruct s as [|c s]; [discriminate|].
    destruct (mem cs c) eqn:M; [|discriminate].
    destruct (star_run _ _ _ _ _ H) as (p & s' & -> & A & K).
    exists s', caps. split; [now constructor | assumption].
  - destruct (star_run _ _ _ _ _ H) as (p & s' & -> & A & K).
    exists s', caps. split; [now constructor | assumption].
  - destruct (IH _ _ _ _ H) as (s' & caps' & R & K).
    exists s', ((i, consumed s s') :: caps'). split; [now constructor | assumption].
  - destruct (IH1 _ _ _ _ H) as (s1 & caps1 & R1 & K1).
    destruct (IH2 _ _ _ _ K1) as (s2 & caps2 & R2 & K2).
    exists s2, caps2. split; [econstructor; eassumption | assumption].
Qed.

(** A run takes a prefix of its input. *)
Lemma run_prefix r s caps s' caps' :
  run r s caps s' caps' -> exists p, s = p ++ s'.
Proof.
  induction 1.
  - now exists lit.
  - now exists (String c EmptyString).
  - now exists (String c p).
  - now exists p.
  - assumption.
  - destruct IHrun1 as (p1 & ->), IHrun2 as (p2 & ->).
    exists (p1 ++ p2). now rewrite app_assoc_string.
Qed.

Lemma consumed_app (p s : string) : consumed (p ++ s) s = p.
Proof.
  unfold consumed. rewrite length_app.
  replace (String.length p + String.length s - String.length s)%nat
    with (String.length p) by lia.
  apply take_app.
Qed.

(** The text of a capture made during a run is a piece of the input. *)
Lemma run_captures r s caps s' caps' :
  run r s caps s' caps' ->
  forall i v, In (i, v) caps' ->
    In (i, v) caps \/ forall c, occurs c v -> occurs c s.
Proof.
  induction 1; intros j v HIn; auto.
  - destruct HIn as [E | HIn].
    + inversion E; subst j v. right.
      destruct (run_prefix _ _ _ _ _ H) as (p & ->).
      rewrite consumed_app. intros c Hc. apply occurs_app. now left.
    + now apply IHrun.
  - destruct (IHrun2 _ _ HIn) as [HIn1 | Hocc].
    + now apply IHrun1.
    + right. intros c Hc.
      destruct (run_prefix _ _ _ _ _ H) as (p & ->).
      apply occurs_app. right. now apply Hocc.
Qed.

Lemma assoc_In i caps v : assoc i caps = Some v -> In (i, v) caps.
Proof.
  induction caps as [|[j w] caps IH]; simpl; [discriminate|].
  destruct (Nat.eqb i j) eqn:E.
  - apply Nat.eqb_eq in E; subst j. intros H; inversion H. now left.
  - intros H. right. auto.
Qed.

Lemma match_here_run r s caps :
  match_here r s = Some caps ->
  exists s', run (RGroup 0 r) s [] s' caps.
Proof.
  unfold match_here. intros H.
  destruct (rmatch_run _ _ _ _ _ H) as (s' & caps' & R & K).
  inversion K; subst caps'. now exists s'.
Qed.

(** The leftmost match is a match at some suffix of the text. *)
Lemma search_here r s caps :
  search r s = Some caps ->
  exists p u, s = p ++ u /\ match_here r u = Some caps.
Proof.
  induction s as [|c s IH]; simpl.
  - destruct (match_here r EmptyString) eqn:E; [|discriminate].
    intros H; inversion H; subst. exists EmptyString, EmptyString. auto.
  - destruct (match_here r (String c s)) eqn:E.
    + intros H; inversion H; subst. exists EmptyString, (String c s). auto.
    + intros H. destruct (IH H) as (p & u & -> & M).
      exists (String c p), u. auto.
Qed.

Lemma assoc_cons_defined i j v caps :
  assoc i caps <> None -> assoc i ((j, v) :: caps) <> None.
Proof. simpl. now destruct (Nat.eqb i j). Qed.

(** A run keeps the captures it was given and adds one for each group of
    its pattern. *)
Lemma run_groups r s caps s' caps' :
  run r s caps s' caps' ->
  forall i, assoc i caps <> None \/ In i (group_indices r) ->
            assoc i caps' <> None.
Proof.
  induction 1; intros j [D|I]; simpl in *; try tauto.
  - apply assoc_cons_defined. apply IHrun. now left.
  - destruct (Nat.eqb j i) eqn:E; [discriminate|].
    destruct I as [->|I]; [now rewrite Nat.eqb_refl in E|].
    apply IHrun. now right.
  - apply IHrun2. left. apply IHrun1. now left.
  - apply in_app_or in I. destruct I as [I|I].
    + apply IHrun2. left. apply IHrun1. now right.
    + apply IHrun2. now right.
Qed.

(** In a match every group of the pattern, and the whole match, has a
    text. *)
Lemma groups_take_part r s caps i :
  search r s = Some caps -> In i (0%nat :: group_indices r) ->
  assoc i caps <> None.
Proof.
  intros H I.
  destruct (search_here _ _ _ H) as (p & u & -> & M).
  destruct (match_here_run _ _ _ M) as (s' & R).
  apply (run_groups _ _ _ _ _ R). now right.
Qed.

(** Every character of a group of a match occurs in the text. *)
Lemma group_occurs r s caps i c :
  search r s = Some caps -> occurs c (group caps i) -> occurs c s.
Proof.
  intros H Hc. unfold group in Hc.
  destruct (assoc i caps) as [v|] eqn:A; [|contradiction].
  destruct (search_here _ _ _ H) as (p & u & -> & M).
  destruct (match_here_run _ _ _ M) as (s' & R).
  destruct (run_captures _ _ _ _ _ R _ _ (assoc_In _ _ _ A)) as [[]|Hocc].
  apply occurs_app. right. now apply Hocc.
Qed.

(* ----------------------------------------------------------------- *)
(** ** The co-host loop *)

(** Inversion of the run of a pattern that is given by its syntax. *)
Ltac invert_run :=
  repeat match goal with
    | H : run (RGroup _ _) _ _ _ _ |- _ => inversion H; subst; clear H
    | H : run (RSeq _ _) _ _ _ _ |- _ => inversion H; subst; clear H
    | H : run (RStr _) _ _ _ _ |- _ => inversion H; subst; clear H
    | H : run (RPlus _) _ _ _ _ |- _ => inversion H; subst; clear H
    | H : run (RStar _) _ _ _ _ |- _ => inversion H; subst; clear H
    | H : run (ROne _) _ _ _ _ |- _ => inversion H; subst; clear H
    end.

(** The shape of every match of [regExp2]: the first group is followed by
    the word and by at least one more character. *)
Lemma regExp2_match_shape u caps :
  match_here regExp2 u = Some caps ->
  exists g1 rest,
    u = g1 ++ " with " ++ rest /\ rest <> EmptyString /\ group caps 1 = g1.
Proof.
  intros H. destruct (match_here_run _ _ _ H) as (s' & R).
  unfold regExp2 in R. invert_run.
  exists (String c0 p0), (String c (p ++ s')). split; [reflexivity|].
  split; [discriminate|].
  exact (consumed_app (String c0 p0) (" with " ++ String c (p ++ s'))).
Qed.

(** Each turn of the loop shortens the title. *)
Lemma withoutHost_shorter t t' :
  withoutHost t = Some t' -> (String.length t' < String.length t)%nat.
Proof.
  unfold withoutHost, js_match. intros H.
  destruct (search regExp2 t) as [caps|] eqn:S; [|discriminate].
  simpl in H. inversion H; subst t'; clear H.
  destruct (search_here _ _ _ S) as (p & u & -> & M).
  destruct (regExp2_match_shape _ _ M) as (g1 & rest & -> & _ & ->).
  rewrite !length_app. simpl. lia.
Qed.

(** With as many turns as the title has characters the loop reaches its
    [break]. *)
Lemma withoutHosts_loop_runs fuel : forall t,
  (String.length t <= fuel)%nat -> loop_runs t (withoutHosts_loop fuel t).
Proof.
  induction fuel as [|fuel IH]; intros t Hlen; simpl.
  - destruct (withoutHost t) as [t'|] eqn:E.
    + apply withoutHost_shorter in E. lia.
    + now constructor.
  - destruct (withoutHost t) as [t'|] eqn:E.
    + apply loop_again with t'; [assumption|].
      apply IH. apply withoutHost_shorter in E. lia.
    + now constructor.
Qed.

Lemma withoutHosts_runs t : loop_runs t (withoutHosts t).
Proof. apply withoutHosts_loop_runs. unfold withoutHosts. lia. Qed.

Lemma loop_runs_unique t r1 r2 : loop_runs t r1 -> loop_runs t r2 -> r1 = r2.
Proof.
  intros H; revert r2; induction H as [t N | t t' r E _ IH]; intros r2 H2.
  - inversion H2; subst; congruence.
  - inversion H2; subst; [congruence|].
    apply IH. congruence.
Qed.

(** C10. For every title the co-host loop terminates: a turn that matches
    replaces the title by a strictly shorter one, the loop started on [t]
    reaches its [break] with the title [withoutHosts t], no further
    match is possible on that result, and no other result is possible. *)
Theorem cohost_loop_terminates (t : string) :
  (forall t', withoutHost t = Some t' ->
              (String.length t' < String.length t)%nat)
  /\ loop_runs t (withoutHosts t)
  /\ withoutHost (withoutHosts t) = None
  /\ (forall r, loop_runs t r -> r = withoutHosts t).
Proof.
  pose proof (withoutHosts_runs t) as R.
  split; [intros t'; apply withoutHost_shorter|].
  split; [exact R|].
  split.
  - clear -R. induction R; auto.
  - intros r Hr. exact (loop_runs_unique _ _ _ Hr R).
Qed.

(* ----------------------------------------------------------------- *)
(** ** Tables *)

Section TableFacts.
Context {V : Type}.
Implicit Types (o : obj V) (k : string) (v : V).

Lemma get_in_keys k o : get k o <> None <-> In k (keys o).
Proof.
  induction o as [|[k' v'] o IH]; simpl; [tauto|].
  destruct (String.eqb k k') eqn:E.
  - apply String.eqb_eq in E. subst. split; [auto | discriminate].
  - apply String.eqb_neq in E. rewrite IH. split; [auto|].
    intros [H|H]; [congruence | assumption].
Qed.

Lemma get_replace k v o k' :
  get k' (replace k v o) =
  if String.eqb k' k then option_map (fun _ => v) (get k o) else get k' o.
Proof.
  induction o as [|[k0 v0] o IH]; simpl.
  - now destruct (String.eqb k' k).
  - destruct (String.eqb k k0) eqn:E; simpl.
    + apply String.eqb_eq in E; subst k0.
      now destruct (String.eqb k' k).
    + rewrite IH. destruct (String.eqb k' k) eqn:E'; [|reflexivity].
      apply String.eqb_eq in E'; subst k'. now rewrite E.
Qed.

Lemma get_insert_index n k v o k' :
  get k o = None ->
  get k' (insert_index n k v o) = if String.eqb k' k then Some v else get k' o.
Proof.
  induction o as [|[k0 v0] o IH]; simpl; [reflexivity|].
  destruct (String.eqb k k0) eqn:E; [discriminate|]. intros G.
  assert (Here : get k' ((k, v) :: (k0, v0) :: o)
                 = if String.eqb k' k then Some v else get k' ((k0, v0) :: o))
    by reflexivity.
  destruct (array_index k0) as [n0|]; [|exact Here].
  destruct (n0 <? n)%N; [|exact Here].
  simpl. rewrite (IH G).
  destruct (String.eqb k' k) eqn:E'; [|reflexivity].
  apply String.eqb_eq in E'; subst k'. now rewrite E.
Qed.

Lemma get_app k o o' :
  get k (o ++ o')%list = match get k o with
                         | Some v => Some v
                         | None => get k o'
                         end.
Proof.
  induction o as [|[k0 v0] o IH]; simpl; [reflexivity|].
  now destruct (String.eqb k k0).
Qed.

(** Reading a property after a write. *)
Lemma get_set k v o k' :
  get k' (set k v o) = if String.eqb k' k then Some v else get k' o.
Proof.
  unfold set. destruct (get k o) as [w|] eqn:G.
  - rewrite get_replace, G. reflexivity.
  - destruct (array_index k) as [n|].
    + now apply get_insert_index.
    + rewrite get_app. simpl.
      destruct (String.eqb k' k) eqn:E.
      * apply String.eqb_eq in E; subst k'. now rewrite G.
      * now destruct (get k' o).
Qed.

Lemma get_set_same k v o : get k (set k v o) = Some v.
Proof. now rewrite get_set, String.eqb_refl. Qed.

Lemma get_set_other k v o k' : k' <> k -> get k' (set k v o) = get k' o.
Proof. intros N. rewrite get_set. apply String.eqb_neq in N. now rewrite N. Qed.

(** A write never removes a key. *)
Lemma in_keys_set k v o k' :
  In k' (keys (set k v o)) <-> k' = k \/ In k' (keys o).
Proof.
  rewrite <- !get_in_keys, get_set.
  destruct (String.eqb k' k) eqn:E.
  - apply String.eqb_eq in E. split; [auto | discriminate].
  - apply String.eqb_neq in E. tauto.
Qed.

Lemma get_writes_absent (source : obj V) ks k : forall acc,
  get k source = None \/ ~ In k ks ->
  get k (fold_left (write_from source) ks acc) = get k acc.
Proof.
  induction ks as [|k0 ks IH]; intros acc H; simpl; [reflexivity|].
  rewrite IH by (simpl in H; tauto).
  unfold write_from. destruct (get k0 source) eqn:G; [|reflexivity].
  apply get_set_other. intros ->. simpl in H. destruct H; [congruence | tauto].
Qed.

Lemma get_writes_present (source : obj V) ks k v : forall acc,
  In k ks -> get k source = Some v ->
  get k (fold_left (write_from source) ks acc) = Some v.
Proof.
  induction ks as [|k0 ks IH]; intros acc I G; simpl; [contradiction|].
  destruct (in_dec string_dec k ks) as [I'|I']; [now apply IH|].
  destruct I as [->|I]; [|contradiction].
  rewrite get_writes_absent by tauto.
  unfold write_from. rewrite G. apply get_set_same.
Qed.

(** Reading a property of [Object.assign(target, source)]. *)
Lemma get_assign (target source : obj V) k :
  get k (assign target source) = match get k source with
                                 | Some v => Some v
                                 | None => get k target
                                 end.
Proof.
  unfold assign.
  destruct (get k source) as [v|] eqn:G.
  - apply get_writes_present; [|assumption].
    apply get_in_keys. congruence.
  - apply get_writes_absent. now left.
Qed.

Lemma in_keys_assign (target source : obj V) k :
  In k (keys (assign target source)) <->
  In k (keys target) \/ In k (keys source).
Proof.
  rewrite <- !get_in_keys, get_assign.
  destruct (get k source); [|tauto].
  split; [right|]; discriminate.
Qed.

End TableFacts.

(* ----------------------------------------------------------------- *)
(** ** The refresh merge *)

(** C7. The table the XML refresh assigns to [archives] has exactly the keys
    of the current table and of the fresh one; a key of the fresh table
    has the fresh record, and a key of the current table alone keeps its
    current record. *)
Theorem merged_union_fresh_wins (current fresh : shows) (key : string) :
  (In key (keys (merged current fresh)) <->
     In key (keys current) \/ In key (keys fresh))
  /\ get key (merged current fresh) = match get key fresh with
                                      | Some record => Some record
                                      | None => get key current
                                      end.
Proof.
  unfold merged. split.
  - rewrite !in_keys_assign. simpl. tauto.
  - rewrite !get_assign. simpl.
    now destruct (get key fresh), (get key current).
Qed.

(* ----------------------------------------------------------------- *)
(** ** Ingestion *)

Section IngestionFacts.
Variable fetch : string -> option string.

(** The two ways [applyShow] goes: nothing to do, or one request and,
    when it is answered, one record written under every key of the
    title. *)
Lemma applyShow_cases now t acc :
  (request t = None /\ applyShow fetch now t acc = Some acc)
  \/ (exists link title date,
         request t = Some link /\ showTitle t = Some title
         /\ showDate t = Some date
         /\ applyShow fetch now t acc
            = match fetch link with
              | Some data =>
                  Some (fold_left
                          (fun acc key =>
                             set key {| titleAnnounce := title;
                                        description := "WFMU archive";
                                        date := Some date;
                                        mp3Link := trim data;
                                        dateFound := Some now |} acc)
                          (getTitleSynonyms title) acc)
              | None => None
              end).
Proof.
  unfold applyShow, request.
  destruct (truthy (m3uLink t) && truthy (showTitle t) && truthy (showDate t))
    eqn:T; [|now left].
  apply andb_prop in T. destruct T as [T Td].
  apply andb_prop in T. destruct T as [Tl Tt].
  destruct (m3uLink t) as [link|]; [|discriminate].
  destruct (showTitle t) as [title|]; [|discriminate].
  destruct (showDate t) as [date|]; [|discriminate].
  right. exists link, title, date. auto.
Qed.

Lemma applyShow_rejected now t acc link :
  request t = Some link -> fetch link = None ->
  applyShow fetch now t acc = None.
Proof.
  intros R F.
  destruct (applyShow_cases now t acc)
    as [[N _] | (l & title & date & R' & _ & _ & ->)]; [congruence|].
  replace l with link by congruence. now rewrite F.
Qed.

Lemma applyShow_answered now t acc :
  (forall link, request t = Some link -> fetch link <> None) ->
  exists acc', applyShow fetch now t acc = Some acc'.
Proof.
  intros H.
  destruct (applyShow_cases now t acc)
    as [[_ E] | (l & title & date & R & _ & _ & E)]; rewrite E.
  - now exists acc.
  - specialize (H l R). destruct (fetch l); [eexists; reflexivity | congruence].
Qed.

Lemma applyShow_without_date now t acc :
  showDate t = None -> applyShow fetch now t acc = Some acc.
Proof.
  intros H.
  destruct (applyShow_cases now t acc)
    as [[_ E] | (l & title & date & _ & _ & D & _)]; [exact E | congruence].
Qed.

(** What a successful [applyShow] leaves in the table. *)
Lemma applyShow_writes now t acc acc' :
  applyShow fetch now t acc = Some acc' ->
  acc' = acc
  \/ exists a, acc' = fold_left (fun acc k => set k a acc) (keysOf t) acc.
Proof.
  intros H. unfold keysOf.
  destruct (applyShow_cases now t acc)
    as [[_ E] | (l & title & date & _ & -> & _ & E)]; rewrite E in H.
  - left. congruence.
  - destruct (fetch l) as [data|]; [|discriminate].
    injection H as <-. right. eexists. reflexivity.
Qed.



Section Each.
Context {A : Type} (triple_of : A -> triple).

(** One rejected iteratee rejects the whole of [async.each]. *)
Lemma each_rejected now item link items : forall acc,
  In (now, item) items ->
  request (triple_of item) = Some link -> fetch link = None ->
  each (fun now item => applyShow fetch now (triple_of item)) items acc = None.
Proof.
  induction items as [|[now' item'] items IH]; intros acc I R F;
    [contradiction|].
  simpl. destruct I as [E|I].
  - inversion E; subst.
    now rewrite (applyShow_rejected _ _ _ _ R F).
  - destruct (applyShow fetch now' (triple_of item') acc); [now apply IH | reflexivity].
Qed.

(** [async.each] succeeds when every request it makes is answered. *)
Lemma each_answered items : forall acc,
  (forall now item link, In (now, item) items ->
     request (triple_of item) = Some link -> fetch link <> None) ->
  exists acc', each (fun now item => applyShow fetch now (triple_of item)) items acc = Some acc'.
Proof.
  induction items as [|[now item] items IH]; intros acc H; simpl.
  - now exists acc.
  - assert (S : exists acc1, applyShow fetch now (triple_of item) acc = Some acc1).
    { apply applyShow_answered. intros link R.
      apply (H now item link); [now left | exact R]. }
    destruct S as (acc1 & ->). apply IH.
    intros now' item' link I. apply (H now' item' link). now right.
Qed.



End Each.

End IngestionFacts.

(* ----------------------------------------------------------------- *)
(** ** Exact lookup *)

(** C1 (as the program has it). Whenever the lower-cased query is a key of
    the table, the handler answers with the record stored under that key,
    whatever the clock reading and whether or not the record is expired:
    the approximate search is not consulted.  For the query "wfmu" this is
    the record stored under "wfmu": the livestream record in every table
    that holds the livestream record under that key. *)
Theorem exact_key_short_circuits (archives : shows) (now : Z) :
  (forall archiveName record,
      get (toLowerCase archiveName) archives = Some record ->
      playArchive archives now archiveName = Some record)
  /\ (get "wfmu" archives = Some liveStreamShow ->
      playArchive archives now "wfmu" = Some liveStreamShow).
Proof.
  assert (G : forall archiveName record,
             get (toLowerCase archiveName) archives = Some record ->
             playArchive archives now archiveName = Some record).
  { intros archiveName record H. unfold playArchive. now rewrite H. }
  split; [exact G|]. intros H. now apply G.
Qed.

(** An expired record is served on an exact hit, and the station name
    finds the livestream. *)
Lemma exact_key_short_circuits_witness :
  expired (t0 + days 31) (scraped "Wake!") = true
  /\ playArchive wakeTable (t0 + days 31) "WAKE" = Some (scraped "Wake!")
  /\ playArchive wakeTable (t0 + days 31) "wfmu" = Some liveStreamShow.
Proof.
  split; [reflexivity|].
  destruct (exact_key_short_circuits wakeTable (t0 + days 31)) as [G W].
  split; [apply G | apply W]; reflexivity.
Defined.

(** C1 (as stated) fails: once the page lists a show called "WFMU", the
    key "wfmu" holds that show's record, and the query "wfmu" is answered
    with it instead of the livestream. *)
Lemma station_name_taken_by_a_show :
  refreshArchiveListFromHtml serveAll (Some [(t0, pageEntry "WFMU")])
    = Some stationTable
  /\ playArchive stationTable t0 "wfmu" = Some (scraped "WFMU")
  /\ playArchive stationTable t0 "wfmu" <> Some liveStreamShow.
Proof.
  split; [reflexivity|]. split; [reflexivity|]. discriminate.
Qed.

(* ----------------------------------------------------------------- *)
(** ** Keys and queries *)

(** The characters of a normalised title. *)
Lemma occurs_normalise c title :
  occurs c (normalise title) ->
  lower_char c = c /\ c <> dquote /\ c <> ":"%char /\ c <> "!"%char.
Proof.
  unfold normalise. rewrite !occurs_remove_all.
  intros (((H & N1) & N2) & N3).
  apply occurs_toLowerCase in H. auto.
Qed.

Lemma pushed_group s r key :
  In key (pushed (js_match s r)) ->
  exists caps, search r s = Some caps /\ key = group caps 1.
Proof.
  unfold js_match. destruct (search r s) as [caps|]; [|contradiction].
  simpl. destruct (map (group caps) (seq 1 (ngroups r))) as [|g1 l] eqn:E;
    [contradiction|].
  intros [<-|[]]. exists caps. split; [reflexivity|].
  destruct (ngroups r); simpl in E; [discriminate | now inversion E].
Qed.

Lemma occurs_synonym c title key :
  In key (getTitleSynonyms title) -> occurs c key -> occurs c (normalise title).
Proof.
  unfold getTitleSynonyms. intros H Hc.
  apply in_app_or in H. destruct H as [[<-|[]]|H]; [assumption|].
  apply in_app_or in H.
  destruct H as [H|H]; apply pushed_group in H;
    destruct H as (caps & S & ->); eapply group_occurs; eassumption.
Qed.

(** The keys of a table after [applyShow] has written a record under each
    synonym. *)
Lemma keys_after_writes (a : archive) syns key : forall acc : shows,
  In key (keys (fold_left (fun acc k => set k a acc) syns acc)) ->
  In key (keys acc) \/ In key syns.
Proof.
  induction syns as [|k syns IH]; intros acc H; simpl in *; [now left|].
  destruct (IH _ H) as [H'|H']; [|tauto].
  apply in_keys_set in H'. destruct H' as [->|H']; tauto.
Qed.




(* ----------------------------------------------------------------- *)
(** ** Titles of the feed *)

(** C8. The title "WFMU MP3 Archive: Wake with Co-Host from Monday 1/1" gives
    the title "Wake" and the date "Monday 1/1", the co-host loop taking
    "Wake with Co-Host" to "Wake".  An item whose title does not match
    the archive-title pattern gets no date, and [applyShow] leaves the
    table as it is without requesting anything. *)
Theorem xml_title_extraction :
  xmlTitleDate "WFMU MP3 Archive: Wake with Co-Host from Monday 1/1"
    = (Some "Wake", Some "Monday 1/1")
  /\ loop_runs "Wake with Co-Host" "Wake"
  /\ (forall text links rest fetch now acc,
         js_match text regExp1 = None ->
         showDate (xmlTriple (mkXmlItem links (text :: rest))) = None
         /\ applyShow fetch now (xmlTriple (mkXmlItem links (text :: rest))) acc
            = Some acc).
Proof.
  split; [reflexivity|]. split.
  - exact (withoutHosts_runs "Wake with Co-Host").
  - intros text links rest fetch now acc H.
    assert (D : showDate (xmlTriple (mkXmlItem links (text :: rest))) = None).
    { unfold xmlTriple, xmlTitleDate. simpl. now rewrite H. }
    split; [exact D | now apply applyShow_without_date].
Qed.

Lemma xml_title_extraction_witness :
  js_match "Hello" regExp1 = None
  /\ showDate (xmlTriple (mkXmlItem ["http://wfmu.org/a.m3u"] ["Hello"])) = None
  /\ applyShow serveAll t0
       (xmlTriple (mkXmlItem ["http://wfmu.org/a.m3u"] ["Hello"])) defaultShows
     = Some defaultShows.
Proof.
  split; [reflexivity|].
  exact (proj2 (proj2 xml_title_extraction)
           "Hello" ["http://wfmu.org/a.m3u"] [] serveAll t0 defaultShows
           eq_refl).
Defined.

Lemma cohost_loop_terminates_witness :
  (String.length "Wake" < String.length "Wake with Co-Host")%nat
  /\ loop_runs "Wake with Co-Host" "Wake".
Proof.
  destruct (cohost_loop_terminates "Wake with Co-Host") as (S & R & _ & _).
  split; [apply S; reflexivity | exact R].
Defined.

(* ----------------------------------------------------------------- *)
(** ** Dates of the page *)

(** The greedy repetition fails when the rest of the pattern fails at
    every position it could stop at. *)
Lemma star_fails cs caps k b :
  (forall p t, b = p ++ t -> k t caps = None) -> star cs b caps k = None.
Proof.
  induction b as [|c b IH]; intros H; simpl.
  - now apply (H EmptyString).
  - assert (Here : k (String c b) caps = None) by now apply (H EmptyString).
    destruct (mem cs c); [|exact Here].
    rewrite IH; [exact Here|].
    intros p t ->. now apply (H (String c p)).
Qed.

(** The greedy repetition stops at the last position where the rest of
    the pattern succeeds. *)
Lemma star_last cs caps k a x b res :
  all_in cs a = true -> mem cs x = true ->
  (forall p t, b = p ++ t -> k t caps = None) ->
  k (String x b) caps = Some res ->
  star cs (a ++ String x b) caps k = Some res.
Proof.
  intros A X F K. induction a as [|c a IH]; simpl in *.
  - now rewrite X, (star_fails cs caps k b F).
  - apply andb_prop in A. destruct A as [C A].
    now rewrite C, (IH A).
Qed.

(** A repetition followed by a continuation that always succeeds,
    succeeds. *)
Lemma star_total cs k (f : string -> captures -> captures) :
  (forall s caps, k s caps = Some (f s caps)) ->
  forall s caps, exists s', star cs s caps k = Some (f s' caps).
Proof.
  intros K s caps. induction s as [|c s IH]; simpl.
  - exists EmptyString. apply K.
  - destruct (mem cs c); [|exists (String c s); apply K].
    destruct IH as (s' & ->). now exists s'.
Qed.

Lemma search_first r s caps : match_here r s = Some caps -> search r s = Some caps.
Proof. intros H. destruct s; simpl; now rewrite H. Qed.

Lemma all_in_dot a :
  (forall c, occurs c a -> is_line_terminator c = false) -> all_in CDot a = true.
Proof.
  induction a as [|c a IH]; simpl; intros H; [reflexivity|].
  rewrite (H c), IH; auto.
Qed.

Lemma no_colon_ahead b p t :
  ~ occurs ":"%char b -> b = p ++ t -> strip_prefix ":" t = None.
Proof.
  intros N ->. destruct t as [|c t]; [reflexivity|].
  cbn [strip_prefix].
  destruct (Ascii.eqb ":" c) eqn:E; [|reflexivity].
  apply Ascii.eqb_eq in E; subst c.
  exfalso. apply N, occurs_app. right. simpl. now left.
Qed.

(** The first group of [dateRegExp] on a text whose last colon follows a
    non-empty piece of one line: that piece. *)
Lemma dateRegExp_last_colon a b :
  a <> EmptyString ->
  (forall c, occurs c a -> is_line_terminator c = false) ->
  ~ occurs ":"%char b ->
  exists whole, js_match (a ++ ":" ++ b) dateRegExp = Some [whole; a].
Proof.
  intros NE L N. destruct a as [|c a]; [congruence|].
  set (s := String c (a ++ String ":" b)).
  change (String c a ++ ":" ++ b) with s.
  pose (k0 := fun (s' : string) (caps' : captures) =>
                Some ((0%nat, consumed s s') :: caps')).
  destruct (star_total (CUnion (CChar ".") (CUnion (CChar "|") CSpace)) k0
              (fun s' caps' => (0%nat, consumed s s') :: caps')
              (fun _ _ => eq_refl) b
              [(1%nat, consumed s (String ":" b))]) as (s' & T).
  exists (consumed s s').
  assert (M : match_here dateRegExp s
              = Some [(0%nat, consumed s s');
                      (1%nat, consumed s (String ":" b))]).
  { unfold match_here, dateRegExp. cbn [rmatch].
    unfold s at 1. cbn [mem].
    rewrite (L c) by (simpl; now left). cbn [negb].
    apply star_last.
    - apply all_in_dot. intros x Hx. apply L. simpl. now right.
    - reflexivity.
    - intros p t E. now rewrite (no_colon_ahead b p t N E).
    - cbn [strip_prefix]. rewrite Ascii.eqb_refl. exact T. }
  unfold js_match. rewrite (search_first _ _ _ M).
  cbn [dateRegExp ngroups Nat.max seq map].
  unfold group. cbn [assoc Nat.eqb]. do 3 f_equal.
  exact (consumed_app (String c a) (String ":" b)).
Qed.

(** C4 (as the program has it). The date of an entry of the page is the
    trimmed text of the date element up to its last colon, provided that
    piece is not empty and holds no line break; it is then trimmed and put
    in lower case. *)
Theorem html_date_before_last_colon (spanText a b : string) :
  trim spanText = a ++ ":" ++ b ->
  a <> EmptyString ->
  (forall c, occurs c a -> is_line_terminator c = false) ->
  ~ occurs ":"%char b ->
  htmlDate spanText = Some (toLowerCase (trim a)).
Proof.
  intros E NE L N. unfold htmlDate. rewrite E.
  destruct (dateRegExp_last_colon a b NE L N) as (whole & ->).
  reflexivity.
Qed.

Lemma html_date_before_last_colon_witness :
  htmlDate " Mon 12:30: .. " = Some "mon 12:30".
Proof.
  apply (html_date_before_last_colon " Mon 12:30: .. " "Mon 12:30" " ..").
  - reflexivity.
  - discriminate.
  - intros c H. simpl in H.
    repeat (destruct H as [<-|H]; [reflexivity|]). contradiction.
  - simpl. intros H.
    repeat (destruct H as [H|H]; [discriminate|]). contradiction.
Defined.

(** C4 (as stated) fails: with two colons in the text, the date is the
    piece before the last one, not before the first. *)
Lemma date_is_not_cut_at_first_colon :
  beforeFirstColon (trim " Mon 12:30: .. ") = "Mon 12"
  /\ htmlDate " Mon 12:30: .. " = Some "mon 12:30"
  /\ htmlDate " Mon 12:30: .. "
     <> Some (beforeFirstColon (trim " Mon 12:30: .. "))
  /\ htmlDate " Mon 12:30: .. "
     <> Some (toLowerCase (trim (beforeFirstColon (trim " Mon 12:30: .. ")))).
Proof.
  split; [reflexivity|]. split; [reflexivity|]. split; discriminate.
Qed.

(* ----------------------------------------------------------------- *)
(** ** Edit distance *)

Lemma levenshtein_cons x a y b :
  levenshtein (String x a) (String y b)
  = Z.min (Z.min (levenshtein a (String y b) + 1)
                 (levenshtein (String x a) b + 1))
          (levenshtein a b + (if Ascii.eqb x y then 0 else 1)).
Proof. reflexivity. Qed.

Lemma levenshtein_empty_r a : levenshtein a EmptyString = Z.of_nat (String.length a).
Proof. now destruct a. Qed.

(** The distance is at least the difference of the lengths. *)
Lemma levenshtein_lower a : forall b,
  Z.of_nat (String.length a) - Z.of_nat (String.length b) <= levenshtein a b.
Proof.
  induction a as [|x a IHa]; intros b.
  - simpl. lia.
  - induction b as [|y b IHb].
    + rewrite levenshtein_empty_r. simpl String.length. lia.
    + rewrite levenshtein_cons.
      pose proof (IHa (String y b)) as H1.
      pose proof (IHa b) as H2.
      cbn [String.length] in *.
      destruct (Ascii.eqb x y); lia.
Qed.

(* ----------------------------------------------------------------- *)
(** ** The approximate search *)

Lemma consider_scanned archives now title seen st key :
  scanned archives now title seen st ->
  scanned archives now title (seen ++ [key])%list
          (consider archives now title st key).
Proof.
  destruct st as [best d]. intros (B & S & M). simpl in B, S, M.
  unfold consider. cbn [snd].
  assert (Old : forall k, In k (seen ++ [key])%list -> In k seen \/ k = key).
  { intros k Hk. apply in_app_or in Hk. simpl in Hk. intuition. }
  destruct (levenshtein title key <? d) eqn:Lt.
  - apply Z.ltb_lt in Lt.
    destruct (get key archives) as [a|] eqn:G.
    + destruct (expired now a) eqn:X.
      * split; [exact B|]. split.
        -- cbn [fst snd]. destruct best as [b|]; [|exact S].
           destruct S as (I & S). split; [apply in_or_app; now left | exact S].
        -- cbn [snd]. intros k Hk C. destruct (Old k Hk) as [I | ->]; [now apply M|].
           destruct C as (a' & G' & X'). congruence.
      * split; [cbn [snd]; lia|]. split.
        -- cbn [fst snd]. split; [apply in_or_app; right; now left|].
           split; [now exists a|]. split; [reflexivity | lia].
        -- cbn [snd]. intros k Hk C. destruct (Old k Hk) as [I | ->]; [|lia].
           specialize (M k I C). lia.
    + split; [exact B|]. split.
      * cbn [fst snd]. destruct best as [b|]; [|exact S].
        destruct S as (I & S). split; [apply in_or_app; now left | exact S].
      * cbn [snd]. intros k Hk C. destruct (Old k Hk) as [I | ->]; [now apply M|].
        destruct C as (a' & G' & X'). congruence.
  - apply Z.ltb_ge in Lt. split; [exact B|]. split.
    + cbn [fst snd]. destruct best as [b|]; [|exact S].
      destruct S as (I & S). split; [apply in_or_app; now left | exact S].
    + cbn [snd]. intros k Hk C. destruct (Old k Hk) as [I | ->]; [now apply M|].
      exact Lt.
Qed.

Lemma fold_scanned archives now title keys_left : forall seen st,
  scanned archives now title seen st ->
  scanned archives now title (seen ++ keys_left)%list
          (fold_left (consider archives now title) keys_left st).
Proof.
  induction keys_left as [|key keys_left IH]; intros seen st H; simpl.
  - now rewrite app_nil_r.
  - replace (seen ++ key :: keys_left)%list
      with ((seen ++ [key]) ++ keys_left)%list
      by (now rewrite <- app_assoc).
    apply IH. now apply consider_scanned.
Qed.

Lemma scan_scanned archives now title :
  scanned archives now title (keys archives) (scan archives now title).
Proof.
  apply (fold_scanned archives now title (keys archives) [] (None, 10000)).
  split; [simpl; lia|]. split; [reflexivity|]. intros key [].
Qed.

(** The key the scan selects is the key of a record that is not expired,
    at the least distance among such records, and below 10000. *)
Theorem scan_selects_nearest_candidate archives now title best :
  fst (scan archives now title) = Some best ->
  candidate archives now best
  /\ levenshtein title best < 10000
  /\ forall key, candidate archives now key ->
                 levenshtein title best <= levenshtein title key.
Proof.
  intros E. destruct (scan_scanned archives now title) as (B & S & M).
  rewrite E in S. destruct S as (I & C & D & Lt).
  split; [exact C|]. split; [lia|].
  intros key Ck. rewrite D. apply M; [|exact Ck].
  destruct Ck as (a & G & _). apply get_in_keys. congruence.
Qed.

(** The scan selects a key as soon as some record that is not expired is
    at a distance below 10000. *)
Theorem scan_selects_when_near archives now title key :
  candidate archives now key -> levenshtein title key < 10000 ->
  exists best a,
    fst (scan archives now title) = Some best
    /\ getBestMatchArchive archives now title = Some a
    /\ get best archives = Some a /\ expired now a = false
    /\ forall key', candidate archives now key' ->
                    levenshtein title best <= levenshtein title key'.
Proof.
  intros C Lt. destruct (scan_scanned archives now title) as (B & S & M).
  destruct (fst (scan archives now title)) as [best|] eqn:E.
  - destruct (scan_selects_nearest_candidate _ _ _ _ E) as ((a & G & X) & _ & Min).
    exists best, a. unfold getBestMatchArchive. rewrite E. simpl. auto.
  - exfalso. assert (I : In key (keys archives)).
    { destruct C as (a & G & _). apply get_in_keys. congruence. }
    specialize (M key I C). lia.
Qed.

(** When every key is at a distance of 10000 or more, no key is selected
    and the function returns the property named "null". *)
Lemma scan_nothing_near archives now title :
  (forall key, In key (keys archives) -> 10000 <= levenshtein title key) ->
  getBestMatchArchive archives now title = get "null" archives.
Proof.
  intros Far. unfold getBestMatchArchive.
  destruct (fst (scan archives now title)) as [best|] eqn:E; [|reflexivity].
  exfalso. destruct (scan_scanned archives now title) as (_ & S & _).
  rewrite E in S. destruct S as (I & _ & D & Lt).
  specialize (Far best I). lia.
Qed.

(* ----------------------------------------------------------------- *)
(** ** Queries far from every key *)

Lemma length_longQuery : String.length longQuery = Z.to_nat 10004.
Proof. apply length_replicate. Qed.

Lemma toLowerCase_replicate n :
  toLowerCase (replicate n "a") = replicate n "a".
Proof. induction n as [|n IH]; simpl; [reflexivity | now rewrite IH]. Qed.

Lemma longQuery_far key :
  (String.length key <= 4)%nat -> 10000 <= levenshtein longQuery key.
Proof.
  intros H. pose proof (levenshtein_lower longQuery key) as L.
  rewrite length_longQuery in L. lia.
Qed.

Lemma longQuery_is_no_key (archives : shows) :
  (forall key, In key (keys archives) -> (String.length key <= 4)%nat) ->
  get longQuery archives = None.
Proof.
  intros Short. destruct (get longQuery archives) eqn:G; [|reflexivity].
  assert (I : In longQuery (keys archives)) by (apply get_in_keys; congruence).
  apply Short in I. rewrite length_longQuery in I. lia.
Qed.

Lemma longQuery_answer (archives : shows) now :
  (forall key, In key (keys archives) -> (String.length key <= 4)%nat) ->
  getBestMatchArchive archives now longQuery = get "null" archives
  /\ playArchive archives now longQuery = get "null" archives.
Proof.
  intros Short.
  assert (B : getBestMatchArchive archives now longQuery = get "null" archives).
  { apply scan_nothing_near. intros key I. apply longQuery_far. auto. }
  split; [exact B|].
  unfold playArchive, longQuery. rewrite toLowerCase_replicate.
  fold longQuery. now rewrite (longQuery_is_no_key archives Short).
Qed.

Lemma short_keys (l : list string) :
  forallb (fun key => (String.length key <=? 4)%nat) l = true ->
  forall key, In key l -> (String.length key <= 4)%nat.
Proof.
  rewrite forallb_forall. intros H key I. now apply Nat.leb_le, H.
Qed.

(** C2 (the program at a failing input). In the default table both records
    are candidates at every clock reading, and yet a query of 10004
    letters is answered with nothing: every distance is 10000 or more, so
    no key ever beats the initial [bestDistance]. *)
Theorem far_query_finds_nothing (now : Z) :
  candidate defaultShows now "play"
  /\ candidate defaultShows now "wfmu"
  /\ getBestMatchArchive defaultShows now longQuery = None
  /\ playArchive defaultShows now longQuery = None.
Proof.
  split; [exists liveStreamShow; split; reflexivity|].
  split; [exists liveStreamShow; split; reflexivity|].
  exact (longQuery_answer defaultShows now
           (short_keys (keys defaultShows) eq_refl)).
Qed.

(** C6 (the program at a failing input). The page lists a show called
    "Null"; 31 days later its record is expired, and the approximate
    search returns it all the same for a query of 10004 letters: no key is
    selected, [best] is still [null], and the property read is the one
    named "null". *)
Theorem expired_record_returned :
  refreshArchiveListFromHtml serveAll (Some [(t0, pageEntry "Null")])
    = Some nullTable
  /\ dateFound (scraped "Null") = Some t0
  /\ expired (t0 + days 31) (scraped "Null") = true
  /\ getBestMatchArchive nullTable (t0 + days 31) longQuery
     = Some (scraped "Null")
  /\ playArchive nullTable (t0 + days 31) longQuery = Some (scraped "Null").
Proof.
  split; [reflexivity|]. split; [reflexivity|]. split; [reflexivity|].
  exact (longQuery_answer nullTable _ (short_keys (keys nullTable) eq_refl)).
Qed.

(** The age test: a record is expired when it has a timestamp other than
    0 that lies more than 30 days back. *)
Lemma expired_iff now a :
  expired now a = true <->
  exists found, dateFound a = Some found /\ found <> 0
                /\ days 30 < now - found.
Proof.
  unfold expired, archiveAgeLimitMilliseconds, days.
  destruct (dateFound a) as [found|].
  - rewrite andb_true_iff, negb_true_iff, Z.eqb_neq, Z.ltb_lt. split.
    + intros [N L]. exists found. repeat split; [exact N | lia].
    + intros (f & E & N & L). inversion E; subst f. split; [exact N | lia].
  - split; [discriminate | intros (f & E & _); discriminate].
Qed.

(** A record found at most 30 days ago is not expired. *)
Lemma not_expired_within_limit now a found :
  dateFound a = Some found -> now - found <= days 30 -> expired now a = false.
Proof.
  intros D L. destruct (expired now a) eqn:X; [|reflexivity].
  apply expired_iff in X. destruct X as (f & E & _ & Lt).
  rewrite D in E. inversion E; subst f. lia.
Qed.

(** A key the scan selects is never that of an expired record. *)
Lemma selected_record_not_expired archives now title best a :
  fst (scan archives now title) = Some best ->
  getBestMatchArchive archives now title = Some a ->
  expired now a = false.
Proof.
  intros E G. unfold getBestMatchArchive in G. rewrite E in G. simpl in G.
  destruct (scan_selects_nearest_candidate _ _ _ _ E) as ((a' & G' & X) & _).
  congruence.
Qed.

(* ----------------------------------------------------------------- *)
(** ** Failed requests *)

(** C3 (as the program has it). When one playlist request of a listing
    fails, the whole refresh is rejected: neither parser returns a table,
    and [refreshFunction] does not assign [archives].  When every request
    is answered, both parsers return a table. *)
Theorem failed_request_rejects_refresh
        (fetch : string -> option string) (now : Z) (link : string) :
  fetch link = None ->
  (forall item items,
      In (now, item) items -> request (xmlTriple item) = Some link ->
      refreshArchiveListFromXml fetch (Some items) = None
      /\ forall archives, refreshFunction fetch archives (Some items) = None)
  /\ (forall item items,
         In (now, item) items -> request (htmlTriple item) = Some link ->
         refreshArchiveListFromHtml fetch (Some items) = None).
Proof.
  intros F. split.
  - intros item items I R.
    assert (X : refreshArchiveListFromXml fetch (Some items) = None)
      by exact (each_rejected fetch xmlTriple now item link items _ I R F).
    split; [exact X|]. intros archives. unfold refreshFunction. now rewrite X.
  - intros item items I R.
    exact (each_rejected fetch htmlTriple now item link items _ I R F).
Qed.

Lemma failed_request_rejects_refresh_witness :
  refreshArchiveListFromXml serveAllButOne (Some twoItems) = None.
Proof.
  refine (proj1 (proj1 (failed_request_rejects_refresh
                          serveAllButOne t0 "http://wfmu.org/gone.m3u" eq_refl)
                   (feedItem "http://wfmu.org/gone.m3u" "Seven Second Delay")
                   twoItems _ eq_refl)).
  right. left. reflexivity.
Defined.

(** A refresh all of whose requests are answered returns a table. *)
Lemma answered_requests_give_a_table fetch :
  (forall link, fetch link <> None) ->
  (forall items, exists latest,
        refreshArchiveListFromXml fetch (Some items) = Some latest)
  /\ (forall items, exists a,
         refreshArchiveListFromHtml fetch (Some items) = Some a).
Proof.
  intros H. split; intros items; apply each_answered; intros; apply H.
Qed.

(** C3 (as stated) fails: with the playlist of one item of two missing, the
    refresh gives no table at all, although the other item alone would
    have been stored. *)
Lemma one_failed_request_loses_the_listing :
  refreshArchiveListFromXml serveAllButOne (Some twoItems) = None
  /\ refreshFunction serveAllButOne defaultShows (Some twoItems) = None
  /\ (exists latest,
         refreshArchiveListFromXml serveAllButOne
           (Some [(t0, feedItem "http://wfmu.org/here.m3u" "Wake")])
         = Some latest
         /\ get "wake" latest <> None).
Proof.
  split; [reflexivity|]. split; [reflexivity|].
  eexists. split; [reflexivity | discriminate].
Qed.

(* ----------------------------------------------------------------- *)
(** ** The two permanent keys *)









Import Prompt Invariant.

(* ================================================================= *)
(** * Further properties *)

(* ----------------------------------------------------------------- *)
(** ** More on the approximate search *)

Lemma consider_earliest archives now title seen st key :
  scanned archives now title seen st ->
  earliest archives now title seen st ->
  earliest archives now title (seen ++ [key])%list
           (consider archives now title st key).
Proof.
  destruct st as [best d]. intros (B & S & M) E.
  unfold earliest in *. cbn [fst snd] in *.
  assert (Keep : match best with
                 | Some b =>
                     exists before after,
                       (seen ++ [key])%list = (before ++ b :: after)%list
                       /\ forall k, In k before -> candidate archives now k ->
                                    d < levenshtein title k
                 | None => True
                 end).
  { destruct best as [b|]; [|exact I].
    destruct E as (before & after & -> & F).
    exists before, (after ++ [key])%list. split; [|exact F].
    now rewrite <- app_assoc. }
  unfold consider. cbn [snd].
  destruct (levenshtein title key <? d) eqn:Lt; [|exact Keep].
  destruct (get key archives) as [a|]; [|exact Keep].
  destruct (expired now a); [exact Keep|].
  cbn [fst snd]. exists seen, []. split; [reflexivity|].
  intros k Hk C. apply Z.ltb_lt in Lt. specialize (M k Hk C). lia.
Qed.

Lemma fold_earliest archives now title keys_left : forall seen st,
  scanned archives now title seen st ->
  earliest archives now title seen st ->
  earliest archives now title (seen ++ keys_left)%list
           (fold_left (consider archives now title) keys_left st).
Proof.
  induction keys_left as [|key keys_left IH]; intros seen st S E; simpl.
  - now rewrite app_nil_r.
  - replace (seen ++ key :: keys_left)%list
      with ((seen ++ [key]) ++ keys_left)%list
      by (now rewrite <- app_assoc).
    apply IH; [now apply consider_scanned | now apply consider_earliest].
Qed.

(** X1. Ties go to the key met first: among the records that are not
    expired, every key enumerated before the selected one is strictly
    farther from the query, and no key at all is nearer. *)
Theorem earliest_nearest_key_is_selected archives now title best :
  fst (scan archives now title) = Some best ->
  exists before after,
    keys archives = (before ++ best :: after)%list
    /\ (forall key, In key before -> candidate archives now key ->
                    levenshtein title best < levenshtein title key)
    /\ (forall key, candidate archives now key ->
                    levenshtein title best <= levenshtein title key).
Proof.
  intros E.
  assert (S0 : scanned archives now title [] (None, 10000)).
  { split; [simpl; lia|]. split; [reflexivity|]. intros key []. }
  pose proof (fold_earliest archives now title (keys archives) []
                (None, 10000) S0 I) as F.
  pose proof (scan_scanned archives now title) as (_ & S & M).
  fold (scan archives now title) in F. unfold earliest in F.
  rewrite E in F, S. simpl in F.
  destruct F as (before & after & K & F).
  destruct S as (_ & _ & D & _).
  exists before, after. split; [exact K|]. split.
  - intros key Hk C. rewrite D. now apply F.
  - intros key C. rewrite D. apply M; [|exact C].
    destruct C as (a & G & _). apply get_in_keys. congruence.
Qed.

(** With the keys "ab" and "ba" both one edit away from "aa" and both
    fresh, the one created first is selected. *)
Lemma earliest_nearest_key_is_selected_witness :
  exists before after,
    ["play"; "wfmu"; "ab"; "ba"] = (before ++ "ab" :: after)%list
    /\ forall key, In key before ->
                   candidate
                     (set "ba" (scraped "Ba") (set "ab" (scraped "Ab") defaultShows))
                     (t0 + days 1) key ->
                   levenshtein "aa" "ab" < levenshtein "aa" key.
Proof.
  destruct (earliest_nearest_key_is_selected
              (set "ba" (scraped "Ba") (set "ab" (scraped "Ab") defaultShows))
              (t0 + days 1) "aa" "ab" eq_refl)
    as (before & after & K & F & _).
  exists before, after. split; [exact K | exact F].
Defined.

(** X3. What the approximate search can return: a record that is not expired
    and is stored under the selected key, or, when no key was selected,
    whatever is stored under "null"; in that case every record that is
    not expired is at a distance of 10000 or more. *)
Theorem approximate_answer_is_fresh_or_null archives now title a :
  getBestMatchArchive archives now title = Some a ->
  (exists best, fst (scan archives now title) = Some best
                /\ get best archives = Some a /\ expired now a = false)
  \/ (fst (scan archives now title) = None
      /\ get "null" archives = Some a
      /\ forall key, candidate archives now key ->
                     10000 <= levenshtein title key).
Proof.
  intros G. unfold getBestMatchArchive in G.
  destruct (scan_scanned archives now title) as (_ & S & M).
  destruct (fst (scan archives now title)) as [best|] eqn:E.
  - left. exists best. simpl in G. split; [reflexivity|]. split; [exact G|].
    destruct S as (_ & (a' & G' & X) & _). congruence.
  - right. split; [reflexivity|]. split; [exact G|].
    intros key C. rewrite <- S. apply M; [|exact C].
    destruct C as (a' & G' & _). apply get_in_keys. congruence.
Qed.

Lemma approximate_answer_is_fresh_or_null_witness :
  exists best, fst (scan wakeTable (t0 + days 31) "woke") = Some best
               /\ get best wakeTable = Some liveStreamShow
               /\ expired (t0 + days 31) liveStreamShow = false.
Proof.
  destruct (approximate_answer_is_fresh_or_null
              wakeTable (t0 + days 31) "woke" liveStreamShow eq_refl)
    as [H | (N & _)]; [exact H | discriminate N].
Defined.





(** X2. The record that is not expired and nearest to the query is what the
    approximate search returns, as soon as one such record is nearer than
    10000: an expired record, however near, does not stand in its way. *)
Theorem nearest_fresh_record_is_returned archives now title key :
  candidate archives now key -> levenshtein title key < 10000 ->
  exists best a,
    getBestMatchArchive archives now title = Some a
    /\ get best archives = Some a /\ expired now a = false
    /\ forall key', candidate archives now key' ->
                    levenshtein title best <= levenshtein title key'.
Proof.
  intros C Near.
  destruct (scan_selects_when_near _ _ _ _ C Near)
    as (best & a & _ & R & G & X & Min).
  exists best, a. auto.
Qed.

(** "wake" is one edit from "woke" but expired; the livestream, four
    edits away, is returned. *)
Lemma nearest_fresh_record_is_returned_witness :
  levenshtein "woke" "wake" = 1
  /\ expired (t0 + days 31) (scraped "Wake!") = true
  /\ exists best a,
       getBestMatchArchive wakeTable (t0 + days 31) "woke" = Some a
       /\ get best wakeTable = Some a /\ expired (t0 + days 31) a = false.
Proof.
  split; [reflexivity|]. split; [reflexivity|].
  destruct (nearest_fresh_record_is_returned wakeTable (t0 + days 31)
              "woke" "wfmu")
    as (best & a & R & G & X & _).
  - exists liveStreamShow. split; reflexivity.
  - reflexivity.
  - exists best, a. auto.
Defined.

(* ----------------------------------------------------------------- *)
(** ** More on ingestion *)

Lemma writes_untouched (a : archive) syns k : forall acc : shows,
  ~ In k syns ->
  get k (fold_left (fun acc k => set k a acc) syns acc) = get k acc.
Proof.
  induction syns as [|s syns IH]; intros acc H; simpl; [reflexivity|].
  rewrite IH by (simpl in H; tauto).
  apply get_set_other. simpl in H. intros ->. tauto.
Qed.

Lemma writes_present (a : archive) syns k : forall acc : shows,
  In k syns -> get k (fold_left (fun acc k => set k a acc) syns acc) = Some a.
Proof.
  induction syns as [|s syns IH]; intros acc I; simpl; [contradiction|].
  destruct (in_dec string_dec k syns) as [I'|I']; [now apply IH|].
  destruct I as [->|I]; [|contradiction].
  rewrite writes_untouched by assumption. apply get_set_same.
Qed.




(** X6. A show that has been stored is found under any of its keys, in any
    spelling of upper and lower case, at any later time: an exact hit
    does not look at the age of the record. *)
Theorem stored_show_is_found_by_its_keys
        fetch now t acc acc' title later archiveName :
  applyShow fetch now t acc = Some acc' ->
  request t <> None -> showTitle t = Some title ->
  In (toLowerCase archiveName) (getTitleSynonyms title) ->
  exists a,
    playArchive acc' later archiveName = Some a
    /\ titleAnnounce a = title /\ dateFound a = Some now.
Proof.
  intros H R T I.
  destruct (applyShow_cases fetch now t acc)
    as [[N _] | (l & ti & d & _ & T' & _ & E)]; [congruence|].
  replace ti with title in E by congruence. rewrite E in H.
  destruct (fetch l) as [data|]; [|discriminate].
  set (a := {| titleAnnounce := title;
               description := "WFMU archive";
               date := Some d;
               mp3Link := trim data;
               dateFound := Some now |}) in *.
  assert (Eq : acc' = fold_left (fun acc key => set key a acc)
                                (getTitleSynonyms title) acc) by congruence.
  exists a. split; [|split; reflexivity].
  unfold playArchive. now rewrite Eq, (writes_present a _ _ acc I).
Qed.

Lemma stored_show_is_found_by_its_keys_witness :
  exists a,
    playArchive wakeTable (t0 + days 400) "WAKE" = Some a
    /\ titleAnnounce a = "Wake!" /\ dateFound a = Some t0.
Proof.
  apply (stored_show_is_found_by_its_keys serveAll t0
           (htmlTriple (pageEntry "Wake!")) defaultShows wakeTable).
  - reflexivity.
  - discriminate.
  - reflexivity.
  - left. reflexivity.
Defined.

Section MoreOnEach.
Variable fetch : string -> option string.
Context {A : Type} (triple_of : A -> triple).



(** Every key of the table after [async.each] was there before or is a key
    of one of the entries. *)
Lemma each_keys_from_items k items : forall acc acc',
  each (fun now item => applyShow fetch now (triple_of item)) items acc
  = Some acc' ->
  In k (keys acc') ->
  In k (keys acc)
  \/ exists now item, In (now, item) items /\ In k (keysOf (triple_of item)).
Proof.
  induction items as [|[now item] items IH]; intros acc acc' H I; simpl in H.
  - injection H as <-. now left.
  - destruct (applyShow fetch now (triple_of item) acc) as [acc1|] eqn:E;
      [|discriminate].
    destruct (IH _ _ H I) as [I1 | (n & i & In' & K)].
    + destruct (applyShow_writes _ _ _ _ _ E) as [->|(a & ->)]; [now left|].
      apply keys_after_writes in I1. destruct I1 as [I1|I1]; [now left|].
      right. exists now, item. split; [now left | exact I1].
    + right. exists n, i. split; [now right | exact K].
Qed.

(** Nothing is requested and nothing is written when no entry is
    complete. *)
Lemma each_nothing_to_do items : forall acc,
  (forall now item, In (now, item) items -> request (triple_of item) = None) ->
  each (fun now item => applyShow fetch now (triple_of item)) items acc
  = Some acc.
Proof.
  induction items as [|[now item] items IH]; intros acc H; simpl; [reflexivity|].
  destruct (applyShow_cases fetch now (triple_of item) acc)
    as [[_ ->] | (l & ti & d & R & _)].
  - apply IH. intros n i I. apply (H n i). now right.
  - rewrite (H now item (or_introl eq_refl)) in R. discriminate.
Qed.

(** Every record of the table after [async.each] was there before or has
    the shape [applyShow] gives. *)
Lemma each_records k r items : forall acc acc',
  each (fun now item => applyShow fetch now (triple_of item)) items acc
  = Some acc' ->
  get k acc' = Some r ->
  scraped_shape r \/ get k acc = Some r.
Proof.
  induction items as [|[now item] items IH]; intros acc acc' H G; simpl in H.
  - injection H as <-. now right.
  - destruct (applyShow fetch now (triple_of item) acc) as [acc1|] eqn:E;
      [|discriminate].
    destruct (IH _ _ H G) as [S|G1]; [now left|].
    destruct (applyShow_cases fetch now (triple_of item) acc)
      as [[_ E'] | (l & ti & d & R & T & D & E')]; rewrite E' in E.
    + injection E as <-. now right.
    + destruct (fetch l) as [data|]; [|discriminate].
      set (a := {| titleAnnounce := ti;
                   description := "WFMU archive";
                   date := Some d;
                   mp3Link := trim data;
                   dateFound := Some now |}) in *.
      assert (Eq : acc1 = fold_left (fun acc key => set key a acc)
                                    (getTitleSynonyms ti) acc) by congruence.
      rewrite Eq in G1.
      destruct (in_dec string_dec k (getTitleSynonyms ti)) as [I|N].
      * rewrite (writes_present a _ _ acc I) in G1. injection G1 as <-.
        left. unfold request in R.
        destruct (truthy (m3uLink (triple_of item))
                  && truthy (showTitle (triple_of item))
                  && truthy (showDate (triple_of item))) eqn:Tr;
          [|discriminate].
        apply andb_prop in Tr. destruct Tr as [Tr Td].
        apply andb_prop in Tr. destruct Tr as [_ Tt].
        rewrite T in Tt. rewrite D in Td.
        split; [simpl; destruct ti; [discriminate | discriminate]|].
        split; [reflexivity|]. split; [|now eexists].
        exists d. split; [reflexivity|]. destruct d; [discriminate | discriminate].
      * rewrite (writes_untouched a _ _ acc N) in G1. now right.
Qed.

End MoreOnEach.



(** X8. A listing none of whose entries has a link, a title and a date gives
    the default table, whatever the server would have answered: nothing
    is requested.  The empty listing is one such. *)
Theorem incomplete_entries_are_skipped fetch :
  (forall items,
      (forall now item, In (now, item) items -> request (xmlTriple item) = None) ->
      refreshArchiveListFromXml fetch (Some items) = Some defaultShows)
  /\ (forall items,
         (forall now item, In (now, item) items ->
                           request (htmlTriple item) = None) ->
         refreshArchiveListFromHtml fetch (Some items) = Some defaultShows).
Proof.
  split; intros items H.
  - exact (each_nothing_to_do fetch xmlTriple items defaultShows H).
  - exact (each_nothing_to_do fetch htmlTriple items defaultShows H).
Qed.

(** An item without a [guid], an item whose title is not that of an
    archive, and no server at all. *)
Lemma incomplete_entries_are_skipped_witness :
  refreshArchiveListFromXml (fun _ => None)
    (Some [(t0, mkXmlItem [] ["WFMU MP3 Archive: Wake from Monday 1/1"]);
           (t0, mkXmlItem ["http://wfmu.org/a.m3u"] ["Schedule changes"])])
  = Some defaultShows.
Proof.
  apply (proj1 (incomplete_entries_are_skipped (fun _ => None))).
  intros now item [E|[E|[]]]; inversion E; reflexivity.
Defined.

(* ----------------------------------------------------------------- *)
(** ** What every table holds *)

Lemma synonym_is_normal title key :
  In key (getTitleSynonyms title) -> normal_key key.
Proof.
  intros H.
  assert (P : forall c, occurs c key ->
                lower_char c = c /\ c <> dquote
                /\ c <> ":"%char /\ c <> "!"%char).
  { intros c Hc. eapply occurs_normalise, occurs_synonym; eassumption. }
  split; [apply toLowerCase_fixed; intros c Hc; now apply P|].
  repeat split; intros Hc; apply P in Hc; tauto.
Qed.

Lemma default_key_is_normal key : In key (keys defaultShows) -> normal_key key.
Proof.
  simpl. intros [<- | [<- | []]]; (split; [reflexivity|]);
    repeat split; simpl; intros H;
    repeat (destruct H as [H|H]; [discriminate H|]); contradiction.
Qed.

Lemma keysOf_normal t key : In key (keysOf t) -> normal_key key.
Proof.
  unfold keysOf. destruct (showTitle t); [apply synonym_is_normal | contradiction].
Qed.

Lemma xml_keys_normal fetch feed latest key :
  refreshArchiveListFromXml fetch feed = Some latest ->
  In key (keys latest) -> normal_key key.
Proof.
  destruct feed as [items|]; [|discriminate]. simpl. intros H I.
  destruct (each_keys_from_items fetch xmlTriple key items _ _ H I)
    as [D | (n & i & _ & K)];
    [now apply default_key_is_normal | now apply (keysOf_normal (xmlTriple i))].
Qed.

Lemma html_keys_normal fetch page a key :
  refreshArchiveListFromHtml fetch page = Some a ->
  In key (keys a) -> normal_key key.
Proof.
  destruct page as [items|]; [|discriminate]. simpl. intros H I.
  destruct (each_keys_from_items fetch htmlTriple key items _ _ H I)
    as [D | (n & i & _ & K)];
    [now apply default_key_is_normal | now apply (keysOf_normal (htmlTriple i))].
Qed.

Lemma live_keys_normal a key : live a -> In key (keys a) -> normal_key key.
Proof.
  intros L. revert key.
  induction L as [fetch page a H | fetch feed a a' L IH H]; intros key I.
  - exact (html_keys_normal fetch page a key H I).
  - unfold refreshFunction in H.
    destruct (refreshArchiveListFromXml fetch feed) as [latest|] eqn:E;
      [|discriminate].
    injection H as <-. unfold merged in I.
    apply in_keys_assign in I. destruct I as [I|I].
    + apply in_keys_assign in I. destruct I as [[]|I]. now apply IH.
    + exact (xml_keys_normal fetch feed latest key E I).
Qed.

(** X9. Every key of every value of [archives] is in lower case and free of
    double quotes, colons and exclamation marks. *)
Theorem every_live_key_is_normalised a key :
  live a -> In key (keys a) ->
  toLowerCase key = key
  /\ ~ occurs dquote key /\ ~ occurs ":"%char key /\ ~ occurs "!"%char key.
Proof. exact (live_keys_normal a key). Qed.

Lemma every_live_key_is_normalised_witness :
  toLowerCase "wake" = "wake" /\ ~ occurs "!"%char "wake".
Proof.
  destruct (every_live_key_is_normalised wakeTable "wake"
              (live_page serveAll (Some [(t0, pageEntry "Wake!")])
                 wakeTable eq_refl)
              (or_intror (or_intror (or_introl eq_refl))))
    as (L & _ & _ & E).
  split; [exact L | exact E].
Defined.

Lemma lower_char_keeps_marks c d :
  d = dquote \/ d = ":"%char \/ d = "!"%char -> lower_char c = d -> c = d.
Proof.
  intros [-> | [-> | ->]];
    destruct c as [[] [] [] [] [] [] [] []]; vm_compute;
    intros H; try reflexivity; discriminate H.
Qed.

Lemma occurs_survives_toLowerCase d s :
  d = dquote \/ d = ":"%char \/ d = "!"%char ->
  occurs d s -> occurs d (toLowerCase s).
Proof.
  intros D. induction s as [|c s IH]; simpl; [tauto|].
  intros [-> | H]; [left | right; auto].
  destruct D as [-> | [-> | ->]]; reflexivity.
Qed.

(** X10. A query that holds a double quote, a colon or an exclamation mark is
    never an exact hit: the handler always answers it through the
    approximate search. *)
Theorem punctuated_query_is_never_exact a now archiveName :
  live a ->
  occurs dquote archiveName \/ occurs ":"%char archiveName
  \/ occurs "!"%char archiveName ->
  get (toLowerCase archiveName) a = None
  /\ playArchive a now archiveName
     = getBestMatchArchive a now (toLowerCase archiveName).
Proof.
  intros L P.
  assert (G : get (toLowerCase archiveName) a = None).
  { destruct (get (toLowerCase archiveName) a) eqn:G; [|reflexivity].
    exfalso.
    assert (I : In (toLowerCase archiveName) (keys a))
      by (apply get_in_keys; congruence).
    destruct (live_keys_normal a _ L I) as (_ & N1 & N2 & N3).
    destruct P as [P|[P|P]];
      [apply N1 | apply N2 | apply N3];
      (apply occurs_survives_toLowerCase; [tauto | exact P]). }
  split; [exact G|]. unfold playArchive. now rewrite G.
Qed.

Lemma punctuated_query_is_never_exact_witness :
  playArchive wakeTable t0 "Wake!"
  = getBestMatchArchive wakeTable t0 (toLowerCase "Wake!").
Proof.
  refine (proj2 (punctuated_query_is_never_exact wakeTable t0 "Wake!"
                   (live_page serveAll (Some [(t0, pageEntry "Wake!")])
                      wakeTable eq_refl) _)).
  right. right. simpl. tauto.
Defined.

Lemma xml_records fetch feed latest k r :
  refreshArchiveListFromXml fetch feed = Some latest ->
  get k latest = Some r -> r = liveStreamShow \/ scraped_shape r.
Proof.
  destruct feed as [items|]; [|discriminate]. simpl. intros H G.
  destruct (each_records fetch xmlTriple k r items _ _ H G) as [S|D];
    [now right|]. left.
  simpl in D. destruct (String.eqb k "play"); [congruence|].
  destruct (String.eqb k "wfmu"); [congruence | discriminate].
Qed.

Lemma html_records fetch page a k r :
  refreshArchiveListFromHtml fetch page = Some a ->
  get k a = Some r -> r = liveStreamShow \/ scraped_shape r.
Proof.
  destruct page as [items|]; [|discriminate]. simpl. intros H G.
  destruct (each_records fetch htmlTriple k r items _ _ H G) as [S|D];
    [now right|]. left.
  simpl in D. destruct (String.eqb k "play"); [congruence|].
  destruct (String.eqb k "wfmu"); [congruence | discriminate].
Qed.

Lemma live_records a k r :
  live a -> get k a = Some r -> r = liveStreamShow \/ scraped_shape r.
Proof.
  intros L. revert k r.
  induction L as [fetch page a H | fetch feed a a' L IH H]; intros k r G.
  - exact (html_records fetch page a k r H G).
  - unfold refreshFunction in H.
    destruct (refreshArchiveListFromXml fetch feed) as [latest|] eqn:E;
      [|discriminate].
    injection H as <-. unfold merged in G. rewrite !get_assign in G.
    destruct (get k latest) as [r'|] eqn:GL.
    + injection G as <-. exact (xml_records fetch feed latest k r' E GL).
    + simpl in G. destruct (get k a) as [r'|] eqn:GA; [|discriminate].
      injection G as <-. now apply (IH k).
Qed.

(** X11. Every record of every value of [archives] is the livestream record
    or has a non-empty title, the description "WFMU archive", a non-empty
    date and a timestamp. *)
Theorem every_live_record_is_livestream_or_scraped a key r :
  live a -> get key a = Some r ->
  r = liveStreamShow
  \/ (titleAnnounce r <> ""
      /\ description r = "WFMU archive"
      /\ (exists d, date r = Some d /\ d <> "")
      /\ (exists found, dateFound r = Some found)).
Proof. exact (live_records a key r). Qed.

Lemma every_live_record_is_livestream_or_scraped_witness :
  scraped "Wake!" = liveStreamShow
  \/ (titleAnnounce (scraped "Wake!") <> ""
      /\ description (scraped "Wake!") = "WFMU archive"
      /\ (exists d, date (scraped "Wake!") = Some d /\ d <> "")
      /\ (exists found, dateFound (scraped "Wake!") = Some found)).
Proof.
  exact (every_live_record_is_livestream_or_scraped wakeTable "wake"
           (scraped "Wake!")
           (live_page serveAll (Some [(t0, pageEntry "Wake!")])
              wakeTable eq_refl)
           eq_refl).
Defined.

(* ----------------------------------------------------------------- *)
(** ** The sentence spoken *)




(* ----------------------------------------------------------------- *)
(** ** More on the titles of the feed *)

(** The text of a group [(.+)] is its first character and what follows. *)
Ltac group_of_plus :=
  match goal with
  | |- context [consumed (String ?x (?p ++ ?r)) ?r] =>
      let E := fresh "E" in
      assert (E : consumed (String x (p ++ r)) r = String x p)
        by exact (consumed_app (String x p) r);
      rewrite E; clear E
  end.

(** The first group of a match of [regExp2] is not empty. *)
Lemma withoutHost_nonempty t t' : withoutHost t = Some t' -> t' <> "".
Proof.
  unfold withoutHost, js_match. intros H.
  destruct (search regExp2 t) as [caps|] eqn:S; [|discriminate].
  simpl in H. injection H as <-.
  destruct (search_here _ _ _ S) as (p & u & -> & M).
  destruct (match_here_run _ _ _ M) as (s' & R).
  unfold regExp2 in R. invert_run.
  unfold group. cbn [assoc Nat.eqb].
  group_of_plus. discriminate.
Qed.

Lemma withoutHost_occurs t t' c :
  withoutHost t = Some t' -> occurs c t' -> occurs c t.
Proof.
  unfold withoutHost, js_match. intros H.
  destruct (search regExp2 t) as [caps|] eqn:S; [|discriminate].
  simpl in H. injection H as <-. exact (group_occurs regExp2 t caps 1 c S).
Qed.

Lemma withoutHosts_loop_keeps fuel : forall t,
  t <> "" ->
  withoutHosts_loop fuel t <> ""
  /\ (String.length (withoutHosts_loop fuel t) <= String.length t)%nat
  /\ forall c, occurs c (withoutHosts_loop fuel t) -> occurs c t.
Proof.
  induction fuel as [|fuel IH]; intros t N; simpl; [auto|].
  destruct (withoutHost t) as [t'|] eqn:E; [|auto].
  destruct (IH t' (withoutHost_nonempty _ _ E)) as (N' & L & O).
  split; [exact N'|]. split.
  - apply withoutHost_shorter in E. lia.
  - intros c Hc. eapply withoutHost_occurs; eauto.
Qed.

(** X13. Stripping the co-hosts never empties a title: what is left of a
    non-empty title is non-empty, no longer than the title, and made of
    characters of the title. *)
Theorem stripped_title_is_not_empty t :
  t <> "" ->
  withoutHosts t <> ""
  /\ (String.length (withoutHosts t) <= String.length t)%nat
  /\ forall c, occurs c (withoutHosts t) -> occurs c t.
Proof. intros N. now apply withoutHosts_loop_keeps. Qed.

Lemma stripped_title_is_not_empty_witness :
  withoutHosts " with Guests with More" <> "".
Proof.
  apply (stripped_title_is_not_empty " with Guests with More"). discriminate.
Defined.

(** The shape of a match of [regExp1]: both groups are non-empty. *)
Lemma regExp1_match_shape text m :
  js_match text regExp1 = Some m ->
  exists g0 g1 g2, m = [g0; g1; g2] /\ g1 <> "" /\ g2 <> "".
Proof.
  unfold js_match. intros H.
  destruct (search regExp1 text) as [caps|] eqn:S; [|discriminate].
  injection H as <-.
  destruct (search_here _ _ _ S) as (p & u & -> & M).
  destruct (match_here_run _ _ _ M) as (s' & R).
  unfold regExp1 in R. invert_run.
  do 3 eexists. split; [|split].
  - cbn [regExp1 ngroups Nat.max seq map]. unfold group.
    cbn [assoc Nat.eqb]. reflexivity.
  - group_of_plus. discriminate.
  - group_of_plus. discriminate.
Qed.

(** X14. An item of the feed whose title matches the archive-title pattern is
    always complete as far as title and date go: whether its playlist is
    requested depends on its [guid] alone, and the link requested is the
    text of the [guid] as it stands. *)
Theorem matching_item_is_requested text m link links rest :
  js_match text regExp1 = Some m ->
  request (xmlTriple (mkXmlItem (link :: links) (text :: rest)))
  = if String.eqb link "" then None else Some link.
Proof.
  intros H. destruct (regExp1_match_shape text m H) as (g0 & g1 & g2 & -> & N1 & N2).
  unfold request, xmlTriple, xmlTitleDate. cbn [guidTexts titleTexts].
  rewrite H. cbn [m3uLink showTitle showDate].
  pose proof (withoutHosts_loop_keeps (String.length g1) g1 N1) as (N & _).
  fold (withoutHosts g1) in N.
  destruct link; [reflexivity|].
  destruct (withoutHosts g1); [congruence|].
  destruct g2; [congruence | reflexivity].
Qed.

Lemma matching_item_is_requested_witness :
  request (xmlTriple (feedItem "http://wfmu.org/a.m3u" "Wake with Clay"))
  = Some "http://wfmu.org/a.m3u".
Proof.
  exact (matching_item_is_requested
           "WFMU MP3 Archive: Wake with Clay from Monday 1/1"
           ["WFMU MP3 Archive: Wake with Clay from Monday 1/1";
            "Wake with Clay"; "Monday 1/1"]
           "http://wfmu.org/a.m3u" [] [] eq_refl).
Defined.

(* ----------------------------------------------------------------- *)
(** ** More on the entries of the page *)

Lemma dateRegExp_needs_colon text m :
  js_match text dateRegExp = Some m -> occurs ":"%char text.
Proof.
  unfold js_match. intros H.
  destruct (search dateRegExp text) as [caps|] eqn:S; [|discriminate].
  destruct (search_here _ _ _ S) as (p & u & -> & M).
  destruct (match_here_run _ _ _ M) as (s' & R).
  unfold dateRegExp in R. invert_run.
  apply occurs_app. right. simpl. right.
  apply occurs_app. right. simpl. now left.
Qed.

(** X15. A date text without a colon gives no date, so that the entry is
    skipped; and a date, when there is one, is in lower case. *)
Theorem date_needs_a_colon spanText :
  (~ occurs ":"%char (trim spanText) -> htmlDate spanText = None)
  /\ (forall d, htmlDate spanText = Some d -> toLowerCase d = d).
Proof.
  unfold htmlDate. split.
  - intros N.
    destruct (js_match (trim spanText) dateRegExp) as [m|] eqn:E;
      [|reflexivity].
    exfalso. exact (N (dateRegExp_needs_colon _ _ E)).
  - intros d H.
    destruct (js_match (trim spanText) dateRegExp) as [[|g0 [|g1 m]]|];
      try discriminate.
    injection H as <-. apply toLowerCase_idem.
Qed.

Lemma date_needs_a_colon_witness :
  htmlDate " Monday 1/1 " = None
  /\ toLowerCase "monday 1/1" = "monday 1/1".
Proof.
  destruct (date_needs_a_colon " Monday 1/1 ") as [N _].
  destruct (date_needs_a_colon "Monday 1/1: ") as [_ L].
  split.
  - apply N. simpl. intros H.
    repeat (destruct H as [H|H]; [discriminate H|]). contradiction.
  - apply L. reflexivity.
Defined.

(** X16. An entry of the page whose archive link has no [href], but which has
    a title and a date, is not skipped: its playlist is requested at the
    base address followed by "undefined", and when that request fails the
    whole page is lost. *)
Theorem missing_href_is_requested_as_undefined item rest title titles d spans date :
  archiveLinkHrefs item = None :: rest ->
  showTitleLinks item = title :: titles -> title <> "" ->
  archiveLinkSpans item = d :: spans -> htmlDate d = Some date -> date <> "" ->
  request (htmlTriple item) = Some "http://wfmu.orgundefined"
  /\ forall fetch now before after,
       fetch "http://wfmu.orgundefined" = None ->
       refreshArchiveListFromHtml fetch
         (Some (before ++ (now, item) :: after)%list) = None.
Proof.
  intros H T Nt S D Nd.
  assert (R : request (htmlTriple item) = Some "http://wfmu.orgundefined").
  { unfold request, htmlTriple. cbn [m3uLink showTitle showDate].
    rewrite H, T, S, D. destruct title; [congruence|].
    destruct date; [congruence | reflexivity]. }
  split; [exact R|]. intros fetch now before after F.
  refine (each_rejected fetch htmlTriple now item _ _ _ _ R F).
  apply in_or_app. right. now left.
Qed.

Lemma missing_href_is_requested_as_undefined_witness :
  request (htmlTriple (mkHtmlItem [None] ["Monday 1/1: "] ["Wake"]))
  = Some "http://wfmu.orgundefined".
Proof.
  refine (proj1 (missing_href_is_requested_as_undefined
                   (mkHtmlItem [None] ["Monday 1/1: "] ["Wake"])
                   [] "Wake" [] "Monday 1/1: " [] "monday 1/1"
                   eq_refl eq_refl _ eq_refl eq_refl _)); discriminate.
Defined.

(* ----------------------------------------------------------------- *)
(** ** More on the synonyms *)

Lemma strip_prefix_short lit t :
  (String.length t < String.length lit)%nat -> strip_prefix lit t = None.
Proof.
  revert t; induction lit as [|c lit IH]; intros t H; simpl in *; [lia|].
  destruct t as [|d t]; [reflexivity|].
  destruct (Ascii.eqb c d); [|reflexivity].
  apply IH. simpl in H. lia.
Qed.

Lemma suffix_length (b p t : string) :
  b = p ++ t -> (String.length t <= String.length b)%nat.
Proof. intros ->. rewrite length_app. lia. Qed.

(** [(.+)] followed by a literal that ends the text: the group is all
    that comes before the literal. *)
Lemma plus_before_final_literal (name : string) (x : ascii) (lit : string)
      (caps : captures) (k : cont) res :
  name <> "" ->
  (forall c, occurs c name -> is_line_terminator c = false) ->
  is_line_terminator x = false ->
  k (String x lit) caps = Some res ->
  (forall t, (String.length t <= String.length lit)%nat -> k t caps = None) ->
  rmatch (RPlus CDot) (name ++ String x lit) caps k = Some res.
Proof.
  intros N L X K F. destruct name as [|c name]; [congruence|].
  cbn [append rmatch mem]. rewrite (L c) by (simpl; now left). cbn [negb].
  apply star_last.
  - apply all_in_dot. intros y Hy. apply L. simpl. now right.
  - cbn [mem]. now rewrite X.
  - intros p t E. apply F. exact (suffix_length _ _ _ E).
  - exact K.
Qed.

(** X17. A show called "<name>'s show" can be asked for by the name alone:
    the name is one of the keys of the title. *)
Theorem possessive_title_has_the_name_as_key title name :
  normalise title = name ++ "'s show" ->
  name <> "" ->
  (forall c, occurs c name -> is_line_terminator c = false) ->
  In name (getTitleSynonyms title).
Proof.
  intros E N L. unfold getTitleSynonyms. rewrite E.
  apply in_or_app. right. apply in_or_app. left.
  set (s := name ++ "'s show").
  assert (M : match_here sShowRegExp s
              = Some [(0%nat, consumed s ""); (1%nat, consumed s "'s show")]).
  { unfold match_here, sShowRegExp. cbn [rmatch].
    apply plus_before_final_literal; try assumption; try reflexivity.
    intros t Ht. rewrite strip_prefix_short; [reflexivity | simpl in *; lia]. }
  unfold js_match. rewrite (search_first _ _ _ M).
  cbn [sShowRegExp ngroups Nat.max seq map pushed]. unfold group.
  cbn [assoc Nat.eqb]. unfold s. rewrite consumed_app. now left.
Qed.

Lemma possessive_title_has_the_name_as_key_witness :
  In "clay pigeon" (getTitleSynonyms "Clay Pigeon's Show!").
Proof.
  apply (possessive_title_has_the_name_as_key "Clay Pigeon's Show!" "clay pigeon").
  - reflexivity.
  - discriminate.
  - intros c H. simpl in H.
    repeat (destruct H as [<-|H]; [reflexivity|]). contradiction.
Defined.

(** X18. A show called "the <name> radio programme" can be asked for by the
    name alone. *)
Theorem programme_title_has_the_name_as_key title name :
  normalise title = "the " ++ name ++ " radio programme" ->
  name <> "" ->
  (forall c, occurs c name -> is_line_terminator c = false) ->
  In name (getTitleSynonyms title).
Proof.
  intros E N L. unfold getTitleSynonyms. rewrite E.
  apply in_or_app. right. apply in_or_app. right.
  set (u := name ++ " radio programme").
  set (s := "the " ++ u).
  assert (M : match_here theRadioProgrammeRegExp s
              = Some [(0%nat, consumed s "");
                      (1%nat, consumed u " radio programme")]).
  { unfold match_here, theRadioProgrammeRegExp. cbn [rmatch].
    unfold s at 1. rewrite strip_prefix_here.
    apply plus_before_final_literal; try assumption; try reflexivity.
    intros t Ht. rewrite strip_prefix_short; [reflexivity | simpl in *; lia]. }
  unfold js_match. rewrite (search_first _ _ _ M).
  cbn [theRadioProgrammeRegExp ngroups Nat.max seq map pushed].
  unfold group. cbn [assoc Nat.eqb]. unfold u.
  rewrite consumed_app. now left.
Qed.

Lemma programme_title_has_the_name_as_key_witness :
  In "glen jones" (getTitleSynonyms "The Glen Jones Radio Programme").
Proof.
  apply (programme_title_has_the_name_as_key
           "The Glen Jones Radio Programme" "glen jones").
  - reflexivity.
  - discriminate.
  - intros c H. simpl in H.
    repeat (destruct H as [<-|H]; [reflexivity|]). contradiction.
Defined.

(* ----------------------------------------------------------------- *)
(** ** More on the refresh *)

(** X19. Merging is idempotent as far as the entries go: merging the same
    fresh table a second time, or merging a table into itself, changes
    neither the keys nor the record of any key. *)
Theorem merging_again_changes_nothing (archives latest : shows) (key : string) :
  get key (merged (merged archives latest) latest)
  = get key (merged archives latest)
  /\ (In key (keys (merged (merged archives latest) latest))
      <-> In key (keys (merged archives latest)))
  /\ get key (merged archives archives) = get key archives
  /\ (In key (keys (merged archives archives)) <-> In key (keys archives)).
Proof.
  assert (G : forall k, get k (merged (merged archives latest) latest)
                        = get k (merged archives latest)).
  { intros k. unfold merged. rewrite !get_assign. simpl.
    now destruct (get k latest), (get k archives). }
  assert (S : forall k, get k (merged archives archives) = get k archives).
  { intros k. unfold merged. rewrite !get_assign. simpl.
    now destruct (get k archives). }
  split; [apply G|]. split; [rewrite <- !get_in_keys, G; tauto|].
  split; [apply S|]. rewrite <- !get_in_keys, S. tauto.
Qed.
